(** * HR20 ESP master: the outbound packet queue ([src/packetqueue.h])

    A shallow embedding of [PacketQ]: the 32-slot table, the
    reserve-for-append scan ([want_to_send_for]), the freeze-and-frame step
    ([prepare_to_send_to]) and the byte producer ([peek] / [pop]) drained by
    the radio driver, followed by the properties of the queue.

    Integers are [Z].  [uint8_t] arguments range over [0..255]; the slot tag
    [Item::addr] is an [int8_t], so a store into it goes through [to_int8] and
    a comparison with a [uint8_t] is the comparison of the two promoted
    [int] values, i.e. plain equality on [Z].  [time_t] is signed and its
    overflow is undefined, so times are unbounded integers. *)

From Stdlib Require Import ZArith Lia Ascii.
From stdpp Require Import base option list.

Local Open Scope Z_scope.

(** ** Fixed-width conversions *)

Definition to_uint8 (z : Z) : Z := z mod 256.
Definition to_int8 (z : Z) : Z := (z + 128) mod 256 - 128.

(** ** Constants *)

Definition PACKET_QUEUE_LEN : nat := 32.
Definition SENT_PACKET_LEN : nat := 76.
Definition MASTER_ADDR : Z := 0x00.
Definition SYNC_ADDR : Z := 0x21.

(** ** The bounded byte buffer *)

Module ShortQ.

(** Modelled from the spec: [queue.h], which declares the template
    [ShortQ<LenT>], is not among the sources.  The buffer is a FIFO of
    octets of capacity [LenT]: [push] appends at the tail when
    [free_size() > 0] and is dropped silently otherwise, [peek] and [pop]
    work at the head, [clear] empties, [free_size() = LenT - count], and
    [data()], [size()] expose the live range. *)
Record t (LenT : nat) : Type := Mk { live : list Z }.
Arguments Mk {LenT} _.
Arguments live {LenT} _.

Section Ops.
Context {LenT : nat}.
Implicit Type q : t LenT.

Definition size q : Z := Z.of_nat (length (live q)).
Definition free_size q : Z := Z.of_nat LenT - size q.
Definition empty q : bool := match live q with [] => true | _ => false end.
Definition clear q : t LenT := Mk [].
Definition push q (c : Z) : t LenT :=
  if 0 <? free_size q then Mk (live q ++ [c]) else q.
(** [peek] on an empty buffer is undefined in the spec; every call in
    [PacketQ] is guarded by [empty]. *)
Definition peek q : Z := hd 0 (live q).
Definition pop q : t LenT := Mk (tl (live q)).
Definition data q : list Z := live q.
(** A write through [data()] over the live range: the bytes change, the
    count does not. *)
Definition overwrite q (f : nat -> Z) : t LenT :=
  Mk (imap (fun i _ => f i) (live q)).
Definition push_all q (cs : list Z) : t LenT := fold_left push cs q.
End Ops.

End ShortQ.

(** ** The crypto facade *)

(** Modelled from the spec: [crypto.h] is not among the sources.
    [cmac_fill data size dir out] pushes an authentication tag of the
    byte range into the buffer [out]; [cmac_tag] is that tag as a function of
    the range and of the direction flag.  [encrypt_decrypt data size]
    rewrites exactly the [size] bytes it is given, so the transform is given
    per offset: [crypt_byte p i] is the byte it leaves at offset [i] of a
    range that held [p]. *)
Record Crypto : Type := {
  cmac_tag : list Z -> bool -> list Z;
  crypt_byte : list Z -> nat -> Z
}.

Definition cmac_fill {N} (c : Crypto) (data : list Z) (dir : bool)
    (out : ShortQ.t N) : ShortQ.t N :=
  ShortQ.push_all out (cmac_tag c data dir).

Definition encrypt_decrypt {N} (c : Crypto) (q : ShortQ.t N) : ShortQ.t N :=
  ShortQ.overwrite q (crypt_byte c (ShortQ.data q)).

(** The range after the in-place transform. *)
Definition crypt_range (c : Crypto) (p : list Z) : list Z :=
  imap (fun i _ => crypt_byte c p i) p.

(** ** Slots and the queue *)

Definition Packet : Type := ShortQ.t SENT_PACKET_LEN.

Record Item : Type := MkItem {
  addr : Z;
  packet : Packet;
  time : Z
}.

Definition Item_clear (it : Item) : Item :=
  {| addr := -1; packet := ShortQ.clear (packet it); time := 0 |}.

(** [Item() = default]: [addr = -1], an empty packet, [time = 0]. *)
Definition Item_new : Item :=
  {| addr := -1; packet := ShortQ.Mk []; time := 0 |}.

Record PacketQ : Type := MkPacketQ {
  que : list Item;
  sending : option nat;
  prologue : ShortQ.t 5;
  cmac : ShortQ.t 6;
  packet_max_age : Z
}.

(** The constructor: all slots default, nothing in flight. *)
Definition PacketQ_new (max_age : Z) : PacketQ :=
  {| que := replicate PACKET_QUEUE_LEN Item_new;
     sending := None;
     prologue := ShortQ.Mk [];
     cmac := ShortQ.Mk [];
     packet_max_age := max_age |}.

(** [que[i]].  The array always has [PACKET_QUEUE_LEN] entries and the loops
    stay below that bound; the default only makes the read total. *)
Definition slot (s : PacketQ) (i : nat) : Item := default Item_new (que s !! i).

Definition set_slot (s : PacketQ) (i : nat) (it : Item) : PacketQ :=
  {| que := <[i := it]> (que s);
     sending := sending s;
     prologue := prologue s;
     cmac := cmac s;
     packet_max_age := packet_max_age s |}.

(** *** [want_to_send_for] *)

(** The loop [for (i = 0; i < PACKET_QUEUE_LEN; ++i)] with
    [ri = PACKET_QUEUE_LEN - 1 - i]: [k] counts the slots still to visit, so
    the slot visited is [ri = k - 1].  The result is the slot whose packet
    buffer is returned ([None] for [nullptr]). *)
Fixpoint want_scan (a bytes curtime : Z) (k : nat) (s : PacketQ)
    : option nat * PacketQ :=
  match k with
  | O => (None, s)
  | S ri =>
      let it := slot s ri in
      if negb (a =? SYNC_ADDR) && (addr it =? a)
         && (bytes <? ShortQ.free_size (packet it))
      then (Some ri, s)
      else if (addr it =? -1) || (time it + packet_max_age s <? curtime)
      then
        let p0 := ShortQ.clear (packet it) in
        let p1 := if negb (a =? SYNC_ADDR) then ShortQ.push p0 a else p0 in
        (Some ri, set_slot s ri {| addr := to_int8 a; packet := p1; time := curtime |})
      else want_scan a bytes curtime ri s
  end.

Definition want_to_send_for (a bytes curtime : Z) (s : PacketQ)
    : option nat * PacketQ :=
  want_scan a bytes curtime PACKET_QUEUE_LEN s.

(** *** [prepare_to_send_to] *)

Section WithCrypto.

Variable crypto : Crypto.

(** What the body of the [if (it.addr == addr)] branch does to slot [i]. *)
Definition freeze (i : nat) (s : PacketQ) : PacketQ :=
    let it := slot s i in
    let isSync := addr it =? SYNC_ADDR in
    let cmac1 := cmac_fill crypto (ShortQ.data (packet it)) false
                   (ShortQ.clear (cmac s)) in
    let pro0 := ShortQ.clear (prologue s) in
    let pro1 := ShortQ.push pro0 0xaa in
    let pro2 := ShortQ.push pro1 0xaa in
    let pro3 := ShortQ.push pro2 0x2d in
    let pro4 := ShortQ.push pro3 0xd4 in
    let pro5 := ShortQ.push pro4
                  (to_uint8 (Z.lor (ShortQ.size (packet it) + ShortQ.size cmac1)
                                   (if isSync then 0x80 else 0x00))) in
    let cmac2 := ShortQ.push (ShortQ.push cmac1 0xAA) 0xAA in
    let pkt := if negb isSync then encrypt_decrypt crypto (packet it)
               else packet it in
    {| que := <[i := {| addr := -2; packet := pkt; time := time it |}]> (que s);
       sending := Some i;
       prologue := pro5;
       cmac := cmac2;
       packet_max_age := packet_max_age s |}.

(** The loop [for (unsigned i = 0; i < PACKET_QUEUE_LEN; ++i)]: [k] counts
    the slots still to visit, [i] is the slot visited. *)
Fixpoint prepare_scan (a : Z) (k i : nat) (s : PacketQ) : bool * PacketQ :=
    match k with
    | O => (false, s)
    | S k' =>
        if addr (slot s i) =? a then (true, freeze i s)
        else prepare_scan a k' (S i) s
    end.

Definition prepare_to_send_to (a : Z) (s : PacketQ) : bool * PacketQ :=
    match sending s with
    | Some _ => (false, s)
    | None => prepare_scan a PACKET_QUEUE_LEN 0%nat s
    end.

End WithCrypto.

(** *** [peek] and [pop] *)

Definition peek (s : PacketQ) : Z :=
  match sending s with
  | None => -1
  | Some i =>
      if negb (ShortQ.empty (prologue s)) then ShortQ.peek (prologue s)
      else if negb (ShortQ.empty (packet (slot s i)))
      then ShortQ.peek (packet (slot s i))
      else if negb (ShortQ.empty (cmac s)) then ShortQ.peek (cmac s)
      else -1
  end.

Definition set_prologue (s : PacketQ) (q : ShortQ.t 5) : PacketQ :=
  {| que := que s; sending := sending s; prologue := q; cmac := cmac s;
     packet_max_age := packet_max_age s |}.

Definition set_cmac (s : PacketQ) (q : ShortQ.t 6) : PacketQ :=
  {| que := que s; sending := sending s; prologue := prologue s; cmac := q;
     packet_max_age := packet_max_age s |}.

Definition set_packet (it : Item) (p : Packet) : Item :=
  {| addr := addr it; packet := p; time := time it |}.

Definition pop (s : PacketQ) : bool * PacketQ :=
  match sending s with
  | None => (false, s)
  | Some i =>
      if negb (ShortQ.empty (prologue s))
      then (true, set_prologue s (ShortQ.pop (prologue s)))
      else if negb (ShortQ.empty (packet (slot s i)))
      then (true, set_slot s i
                    (set_packet (slot s i) (ShortQ.pop (packet (slot s i)))))
      else
        let s1 := if negb (ShortQ.empty (cmac s))
                  then set_cmac s (ShortQ.pop (cmac s)) else s in
        if ShortQ.empty (cmac s1)
        then (false,
              {| que := <[i := Item_clear (slot s1 i)]> (que s1);
                 sending := None;
                 prologue := ShortQ.clear (prologue s1);
                 cmac := ShortQ.clear (cmac s1);
                 packet_max_age := packet_max_age s1 |})
        else (true, s1)
  end.

(** *** Draining a frame *)

(** The radio's loop: [peek], send the byte, [pop], until [pop] reports
    that nothing is left.  [None] when [fuel] rounds were not enough. *)
Fixpoint drain (fuel : nat) (s : PacketQ) : option (list Z * PacketQ) :=
  match fuel with
  | O => None
  | S fuel' =>
      let b := peek s in
      let '(more, s') := pop s in
      if more
      then match drain fuel' s' with
           | Some (bs, s'') => Some (b :: bs, s'')
           | None => None
           end
      else Some ([b], s')
  end.

(** ** A mock crypto for concrete runs

    Scenario 6 of the specification: [encrypt_decrypt] is XOR with [0xFF] per
    byte and the tag is the 4-byte little-endian sum of the input bytes. *)
Definition mock_crypto : Crypto :=
  {| cmac_tag := fun p _ =>
       let sum := foldr Z.add 0 p in
       [to_uint8 sum; to_uint8 (Z.shiftr sum 8); to_uint8 (Z.shiftr sum 16);
        to_uint8 (Z.shiftr sum 24)];
     crypt_byte := fun p i => Z.lxor (nth i p 0) 0xFF |}.

(** The caller writes bytes through the handle returned by
    [want_to_send_for]. *)
Definition push_to (i : nat) (c : Z) (s : PacketQ) : PacketQ :=
  set_slot s i (set_packet (slot s i) (ShortQ.push (packet (slot s i)) c)).

Definition scenario1 : PacketQ :=
  let s := snd (want_to_send_for 5 3 0 (PacketQ_new 60)) in
  let s := push_to 31 0x33 (push_to 31 0x22 (push_to 31 0x11 s)) in
  let s := snd (want_to_send_for 5 2 1 s) in
  push_to 31 0x55 (push_to 31 0x44 s).


(** Address 7 reserved, then address 5, frame 7 sent and drained: slot 31
    is free again and slot 30 still holds address 5. *)
Definition reopened : PacketQ :=
  let s := snd (want_to_send_for 7 1 0 (PacketQ_new 60)) in
  let s := snd (want_to_send_for 5 1 0 s) in
  let s := snd (prepare_to_send_to mock_crypto 7 s) in
  match drain 12 s with
  | Some (_, s') => s'
  | None => s
  end.

(** Address 5 reserved at time 0 and its frame frozen, not yet drained. *)
Definition frozen5 : PacketQ :=
  let s := snd (want_to_send_for 5 3 0 (PacketQ_new 60)) in
  snd (prepare_to_send_to mock_crypto 5 s).


(** ** The two rules of the reserve scan, per slot

    Rule 1 is the test of lines 52-53 (same non-SYNC address and room for
    strictly more than [bytes]); rule 2 the test of line 60 (free, or older
    than [packet_max_age]). *)
Definition rule1 (a bytes : Z) (it : Item) : bool :=
  negb (a =? SYNC_ADDR) && (addr it =? a)
  && (bytes <? ShortQ.free_size (packet it)).

Definition rule2 (max_age curtime : Z) (it : Item) : bool :=
  (addr it =? -1) || (time it + max_age <? curtime).

(** Neither rule fires on slot [j]. *)
Definition passed_over (a bytes curtime : Z) (s : PacketQ) (j : nat) : Prop :=
  rule1 a bytes (slot s j) = false
  ∧ rule2 (packet_max_age s) curtime (slot s j) = false.

(** The slot a claim under rule 2 leaves behind. *)
Definition claimed (a curtime : Z) : Item :=
  {| addr := to_int8 a;
     packet := ShortQ.Mk (if a =? SYNC_ADDR then [] else [a]);
     time := curtime |}.

(** ** Runs of the queue *)

Definition uint8 (z : Z) : Prop := 0 ≤ z < 256.

(** The calls the upper layers and the radio driver make.  [PushTo i c] is the
    caller pushing the byte [c] through the handle of slot [i] that
    [want_to_send_for] returned. *)
Inductive call : Type :=
| WantToSendFor (a bytes curtime : Z)
| PrepareToSendTo (a : Z)
| Peek
| Pop
| PushTo (i : nat) (c : Z).

(** Arguments are in the range of their C type. *)
Definition well_typed (c : call) : Prop :=
  match c with
  | WantToSendFor a bytes _ => uint8 a ∧ uint8 bytes
  | PrepareToSendTo a => uint8 a
  | Peek | Pop => True
  | PushTo i c => (i < PACKET_QUEUE_LEN)%nat ∧ uint8 c
  end.

Definition exec (crypto : Crypto) (c : call) (s : PacketQ) : PacketQ :=
  match c with
  | WantToSendFor a bytes curtime => snd (want_to_send_for a bytes curtime s)
  | PrepareToSendTo a => snd (prepare_to_send_to crypto a s)
  | Peek => s
  | Pop => snd (pop s)
  | PushTo i c => push_to i c s
  end.

(** States reached from a fresh queue by well-typed calls that each satisfy
    [ok] in the state they are made in. *)
Inductive reachable_via (crypto : Crypto) (ok : PacketQ -> call -> Prop)
    (max_age : Z) : PacketQ -> Prop :=
| reach_new : reachable_via crypto ok max_age (PacketQ_new max_age)
| reach_call s c :
    reachable_via crypto ok max_age s ->
    well_typed c -> ok s c ->
    reachable_via crypto ok max_age (exec crypto c s).

Definition reachable (crypto : Crypto) (max_age : Z) : PacketQ -> Prop :=
  reachable_via crypto (fun _ _ => True) max_age.

(** The table has its 32 slots, and a frame in flight sits in one of them
    and still has bytes in the MAC buffer. *)
Definition in_flight_ok (s : PacketQ) : Prop :=
  length (que s) = PACKET_QUEUE_LEN ∧
  ∀ i, sending s = Some i →
       (i < PACKET_QUEUE_LEN)%nat ∧ ShortQ.empty (cmac s) = false.

(** A slot is open when it is neither free nor frozen. *)
Definition open (it : Item) : Prop := addr it ≠ -1 ∧ addr it ≠ -2.


(** The frame still to be served from slot [i]: prologue, payload, MAC
    buffer. *)
Definition frame_left (i : nat) (s : PacketQ) : list Z :=
  ShortQ.live (prologue s) ++ ShortQ.live (packet (slot s i))
  ++ ShortQ.live (cmac s).

(** One byte taken from the first non-empty of prologue, payload of slot
    [i], MAC buffer. *)
Definition consume_one (i : nat) (s : PacketQ) : PacketQ :=
  match ShortQ.live (prologue s) with
  | _ :: pro => set_prologue s (ShortQ.Mk pro)
  | [] =>
      match ShortQ.live (packet (slot s i)) with
      | _ :: pay => set_slot s i (set_packet (slot s i) (ShortQ.Mk pay))
      | [] => set_cmac s (ShortQ.Mk (tl (ShortQ.live (cmac s))))
      end
  end.

(** The queue once the frame served from slot [i] is complete: the slot is
    free again and nothing is in flight. *)
Definition released (i : nat) (s : PacketQ) : PacketQ :=
  {| que := <[i := {| addr := -1; packet := ShortQ.Mk []; time := 0 |}]> (que s);
     sending := None;
     prologue := ShortQ.Mk [];
     cmac := ShortQ.Mk [];
     packet_max_age := packet_max_age s |}.

(** Every slot tag is a value of the signed 8-bit field. *)
Definition tags_int8 (s : PacketQ) : Prop :=
  Forall (fun it => -128 ≤ addr it ≤ 127) (que s).

(** ** Reserving with coalescing in mind *)




(** Every open slot bound to a non-SYNC address, other than the one in
    flight, has the address (its tag read back as [uint8_t]) as first byte of
    its packet. *)
Definition first_byte_is_address (s : PacketQ) : Prop :=
  ∀ i it, que s !! i = Some it → open it → addr it ≠ SYNC_ADDR →
          sending s ≠ Some i →
          head (ShortQ.live (packet it)) = Some (to_uint8 (addr it)).

(** A series of calls. *)
Definition run (crypto : Crypto) (calls : list call) (s : PacketQ) : PacketQ :=
  fold_left (fun s c => exec crypto c s) calls s.


(** Address 5 reserved and frozen, the frozen slot reclaimed for address 9
    once it is stale, the prologue and the one payload byte popped, and a
    byte pushed through the handle of the reclaimed slot. *)
Definition overwritten_in_flight : PacketQ :=
  run mock_crypto
    [WantToSendFor 5 3 0; PrepareToSendTo 5; WantToSendFor 9 1 61;
     Pop; Pop; Pop; Pop; Pop; Pop; PushTo 31 0x42]
    (PacketQ_new 60).

(** ** Utilities ([src/util.h]) *)

Definition to_uint16 (z : Z) : Z := z mod 65536.
Definition to_uint32 (z : Z) : Z := z mod 4294967296.

Module RequestDelay.

(** [template<int8_t RETRY_SKIPS> struct RequestDelay]: the state is the
    [int8_t counter]; the template argument is passed to [should_retry]. *)
Record t : Type := Mk { counter : Z }.

(** The constructor: starts paused. *)
Definition new : t := Mk (-1).

Definition should_retry (RETRY_SKIPS : Z) (d : t) : bool * t :=
  if counter d <? 0 then (false, d)
  else if counter d =? 0 then (true, Mk RETRY_SKIPS)
  else (false, Mk (to_int8 (counter d - 1))).

Definition pause (d : t) : t := Mk (-1).
Definition resume (d : t) : t := Mk 0.
Definition is_paused (d : t) : bool := counter d <? 0.

(** The answers of [n] calls of [should_retry] in a row. *)
Fixpoint retries (RETRY_SKIPS : Z) (n : nat) (d : t) : list bool * t :=
  match n with
  | O => ([], d)
  | S n' =>
      let '(b, d') := should_retry RETRY_SKIPS d in
      let '(bs, d'') := retries RETRY_SKIPS n' d' in
      (b :: bs, d'')
  end.

End RequestDelay.

Module Flags.

(** [struct Flags]: eight flags packed in the [uint8_t val]. *)
Record t : Type := Mk { val : Z }.

Definition new : t := Mk 0.

(** [accessor::mask]: [1 << idx] returned as [uint8_t].  The shift is a shift
    of an [int], defined for [idx] below 31. *)
Definition mask (idx : Z) : Z := to_uint8 (Z.shiftl 1 idx).

(** [operator bool] of [accessor] and [const_accessor]. *)
Definition get (f : t) (idx : Z) : bool :=
  negb (Z.land (val f) (Z.shiftl 1 idx) =? 0).

(** [accessor::operator=(bool)]: the value returned and the flags after. *)
Definition set (f : t) (idx : Z) (b : bool) : bool * t :=
  let m := mask idx in
  let f' := Mk (to_uint8 (Z.lor (Z.land (val f) (Z.lnot m)) (if b then m else 0))) in
  (get f' idx, f').

End Flags.

Module ForceFlags.

(** [struct ForceFlags]: [uint8_t ctr], [uint8_t small[2]], [uint32_t big],
    [bool fat]. *)
Record t : Type := Mk { ctr : Z; small : list Z; big : Z; fat : bool }.

Definition new : t := Mk 0 [0; 0] 0 false.

(** [MAX_HR_COUNT] comes from [config.h], which is not among the sources; it
    is a parameter.  [1 << addr] is a shift of an [int], defined for [addr]
    below 31; the sum is taken in [uint32_t]. *)
Definition push (MAX_HR_COUNT : Z) (addr : Z) (fat_comms : bool) (f : t) : t :=
  if MAX_HR_COUNT <=? addr then f
  else
    {| ctr := to_uint8 (ctr f + 1);
       small := if ctr f <? 2 then <[Z.to_nat (ctr f) := addr]> (small f)
                else small f;
       big := to_uint32 (big f + Z.shiftl 1 addr);
       fat := fat f || fat_comms |}.

(** [write]: the values handed to [p->push], in order. *)
Definition write (f : t) : list Z :=
  if (ctr f <=? 2) && fat f
  then [nth 0 (small f) 0; nth 1 (small f) 0]
  else [Z.land (big f) 0x0FF;
        Z.land (Z.shiftr (big f) 8) 0x0FF;
        Z.land (Z.shiftr (big f) 16) 0x0FF;
        Z.land (Z.shiftr (big f) 24) 0x0FF].

Definition count (f : t) : Z := ctr f.

(** A series of [push] calls. *)
Definition push_list (MAX_HR_COUNT : Z) (l : list (Z * bool)) (f : t) : t :=
  fold_left (fun f p => push MAX_HR_COUNT (fst p) (snd p) f) l f.

(** The calls of a series that [push] accepts. *)
Definition accepted (MAX_HR_COUNT : Z) (l : list (Z * bool)) : list (Z * bool) :=
  filter (fun p => fst p < MAX_HR_COUNT) l.

End ForceFlags.

(** [enum ChangeCategory]: [CHANGE_TIMER d] stands for the enumerators
    [CHANGE_TIMER_0 = 2], [CHANGE_TIMER_1 = 4], ..., [CHANGE_TIMER_7 = 256]. *)
Definition CHANGE_FREQUENT : Z := 1.
Definition CHANGE_TIMER_MASK : Z := 0x1FE.
Definition CHANGE_TIMER (day : Z) : Z := Z.shiftl 2 day.

Definition change_get_timer_mask (change : Z) : Z :=
  to_uint8 (Z.shiftr (Z.land change CHANGE_TIMER_MASK) 1).

Module json.

(** An Arduino [String] as its characters.  The [String &s] member of
    [Curly] is a reference to the caller's string: every operation takes the
    string as it is and returns it as it has become, and an [Object] is that
    string together with its own [first] flag. *)
Definition String : Type := list ascii.

Definition quote : ascii := "034"%char.

(** [Curly::Curly] and [Curly::~Curly]. *)
Definition Curly_ctor (s : String) : String := s ++ ["{"%char].
Definition Curly_dtor (s : String) : String := s ++ ["}"%char].

(** [str(str, val)], for a [val] that [String::operator+=] appends as
    text. *)
Definition str (s val : String) : String := ((s ++ [quote]) ++ val) ++ [quote].

Record Object : Type := MkObject { s : String; first : bool }.

(** [Object(String &s)]. *)
Definition Object_ctor (s0 : String) : Object := MkObject (Curly_ctor s0) true.

(** [Object(Object &o)]: a nested object on the same string; its [first]
    is the default [true], the outer object keeps its own flag. *)
Definition Object_nested (o : Object) : Object := MkObject (Curly_ctor (s o)) true.

Definition key (o : Object) (name : String) : Object :=
  let s1 := if negb (first o) then s o ++ [","%char; " "%char] else s o in
  MkObject (str s1 name ++ [" "%char; ":"%char; " "%char]) false.

Definition kv (o : Object) (name val : String) : Object :=
  let o' := key o name in
  MkObject (str (s o') val) (first o').

(** The destructor of an [Object] gives the string back, closed. *)
Definition Object_dtor (o : Object) : String := Curly_dtor (s o).

(** The outer object once a nested one has been destroyed: the string is the
    nested object's, closed; the flag is its own. *)
Definition Object_resume (outer inner : Object) : Object :=
  MkObject (Object_dtor inner) (first outer).

Definition kv_list (o : Object) (l : list (String * String)) : Object :=
  fold_left (fun o p => kv o (fst p) (snd p)) l o.

(** What a member should look like, and members separated by [", "]. *)
Definition member (p : String * String) : String :=
  [quote] ++ fst p ++ [quote] ++ [" "%char; ":"%char; " "%char]
  ++ [quote] ++ snd p ++ [quote].

Fixpoint join (l : list String) : String :=
  match l with
  | [] => []
  | [x] => x
  | x :: rest => x ++ [","%char; " "%char] ++ join rest
  end.

End json.

(** ** The NTP client ([src/lib/NTPClient/NTPClient.cpp]) *)

Module NTPClient.

(** [NTPClient.h] is not among the sources.  The members are taken as
    [NTPClient.cpp] uses them; the arithmetic on them is that of
    [unsigned long] and [long], 32 bits wide on the ESP8266.  Every
    expression below that mixes a member with [millis()] (an
    [unsigned long]) is evaluated in [unsigned long] whatever the member's
    own signedness, so the wrap-around is the one written here.  [millis()]
    is an input: each function takes the reading it makes. *)
Definition to_ulong (z : Z) : Z := z mod 2 ^ 32.
Definition to_long (z : Z) : Z := (z + 2 ^ 31) mod 2 ^ 32 - 2 ^ 31.

Record t : Type := Mk {
  _timeOffset : Z;
  _currentEpoc : Z;
  _epocMS : Z;
  _driftMS : Z;
  _lastUpdate : Z;
  _lastSlew : Z
}.

(** 1 for positive, -1 for negative, 0 for zero. *)
Definition sign (num : Z) : Z :=
  (if 0 <? num then 1 else 0) - (if num <? 0 then 1 else 0).

Definition getEpochTime (c : t) (millis : Z) : Z :=
  to_ulong (_timeOffset c + _currentEpoc c
            + to_ulong (millis - _epocMS c) / 1000).

Definition getDay (c : t) (millis : Z) : Z :=
  to_ulong (getEpochTime c millis / 86400 + 4) mod 7.

Definition getHours (c : t) (millis : Z) : Z :=
  (getEpochTime c millis mod 86400) / 3600.

Definition getMinutes (c : t) (millis : Z) : Z :=
  (getEpochTime c millis mod 3600) / 60.

Definition getSeconds (c : t) (millis : Z) : Z :=
  getEpochTime c millis mod 60.

Definition getMillis (c : t) (millis : Z) : Z :=
  to_ulong (millis - _epocMS c) mod 1000.

(** [slew]: the value returned and the client after. *)
Definition slew (c : t) (millis : Z) : Z * t :=
  if _lastUpdate c =? 0 then (0, c)
  else
    let ms := millis in
    let c' :=
      if 60000 <=? to_ulong (ms - _lastSlew c)
      then
        let correction := sign (_driftMS c) in
        {| _timeOffset := _timeOffset c;
           _currentEpoc := _currentEpoc c;
           _epocMS := to_ulong (_epocMS c + correction);
           _driftMS := to_long (_driftMS c - correction);
           _lastUpdate := _lastUpdate c;
           _lastSlew := ms |}
      else c in
    (_driftMS c', c').

(** [slew] called at each of the readings [ts] in turn. *)
Definition slew_all (c : t) (ts : list Z) : t :=
  fold_left (fun c ms => snd (slew c ms)) ts c.

(** Each reading is at least a minute after the slew before it. *)
Fixpoint all_due (last : Z) (ts : list Z) : Prop :=
  match ts with
  | [] => True
  | ms :: rest => 60000 ≤ to_ulong (ms - last) ∧ all_due ms rest
  end.

(** The fraction of the reply turned into [mssec] in [forceUpdate]
    (line 117): [((frac >> 7) * 125 + (1UL << 24)) >> 25], stored in a
    [uint16_t]. *)
Definition mssec (frac : Z) : Z :=
  to_uint16
    (Z.shiftr (to_ulong (to_ulong (Z.shiftr frac 7 * 125) + Z.shiftl 1 24)) 25).

End NTPClient.

(** * Properties *)

(** ** Concrete runs *)

(** Scenario 1 with the mock crypto: the six plaintext bytes
    [05 11 22 33 44 55] sum to [0x104], so the tag is [04 01 00 00]. *)
Example scenario1_drain :
  fst <$> drain 100 (snd (prepare_to_send_to mock_crypto 5 scenario1)) =
  Some [0xAA; 0xAA; 0x2D; 0xD4; 10; 0xFA; 0xEE; 0xDD; 0xCC; 0xBB; 0xAA;
        0x04; 0x01; 0; 0; 0xAA; 0xAA].
Proof. vm_compute. reflexivity. Qed.

(** ** Fixed-width conversions *)

Lemma to_int8_small a : 0 ≤ a < 128 → to_int8 a = a.
Proof. intros H. unfold to_int8. rewrite Z.mod_small; lia. Qed.

(** ** The slot table *)


Lemma slot_set_slot_eq s i it :
  (i < length (que s))%nat → slot (set_slot s i it) i = it.
Proof. intros Hi. unfold slot, set_slot; simpl. rewrite list_lookup_insert_eq; auto. Qed.

Lemma slot_set_slot_ne s i j it :
  i ≠ j → slot (set_slot s i it) j = slot s j.
Proof. intros Hij. unfold slot, set_slot; simpl. rewrite list_lookup_insert_ne; auto. Qed.

(** ** [prepare_to_send_to] while busy, [pop] while idle *)

(** C8: with a frame already frozen ([sending] non-null),
    [prepare_to_send_to] returns false and hands back the very same state:
    no slot, and neither the prologue nor the MAC buffer, is touched. *)
Theorem prepare_while_busy crypto a s :
  sending s ≠ None → prepare_to_send_to crypto a s = (false, s).
Proof.
  intros Hbusy. unfold prepare_to_send_to.
  destruct (sending s); [reflexivity | congruence].
Qed.

Lemma prepare_while_busy_witness :
  let s := snd (prepare_to_send_to mock_crypto 5 scenario1) in
  sending s ≠ None ∧ prepare_to_send_to mock_crypto 7 s = (false, s).
Proof.
  split; [vm_compute; discriminate |].
  apply prepare_while_busy. vm_compute. discriminate.
Defined.

(** C10: with no frame in flight ([sending] null), [pop] returns false and
    the whole queue state (slots, prologue, MAC buffer, [sending]) is the
    one before the call. *)
Theorem pop_while_idle s :
  sending s = None → pop s = (false, s).
Proof. intros Hidle. unfold pop. rewrite Hidle. reflexivity. Qed.

Lemma pop_while_idle_witness :
  sending scenario1 = None ∧ pop scenario1 = (false, scenario1).
Proof. split; [reflexivity | apply pop_while_idle; reflexivity]. Defined.

(** ** The bounded byte buffer *)

Lemma push_live {N} (q : ShortQ.t N) c :
  ShortQ.live (ShortQ.push q c) =
  if 0 <? ShortQ.free_size q then ShortQ.live q ++ [c] else ShortQ.live q.
Proof. unfold ShortQ.push. destruct (0 <? ShortQ.free_size q); reflexivity. Qed.

Lemma push_all_live {N} (cs : list Z) : ∀ q : ShortQ.t N,
  (length (ShortQ.live q) ≤ N)%nat →
  ShortQ.live (ShortQ.push_all q cs) = take N (ShortQ.live q ++ cs).
Proof.
  unfold ShortQ.push_all.
  induction cs as [|c cs IH]; intros q Hq; simpl.
  - rewrite app_nil_r, take_ge; [reflexivity | lia].
  - unfold ShortQ.push at 2, ShortQ.free_size, ShortQ.size.
    destruct (Z.ltb_spec 0 (Z.of_nat N - Z.of_nat (length (ShortQ.live q)))) as [Hroom|Hfull].
    + rewrite IH; simpl.
      * rewrite <- app_assoc. reflexivity.
      * rewrite length_app; simpl. lia.
    + rewrite IH by exact Hq.
      rewrite !take_app_le by lia. reflexivity.
Qed.

Lemma push_all_new_live {N} (q : ShortQ.t N) cs :
  ShortQ.live (ShortQ.push_all (ShortQ.clear q) cs) = take N cs.
Proof. rewrite push_all_live; simpl; [reflexivity | lia]. Qed.

Lemma push_all_app {N} (q : ShortQ.t N) cs ds :
  ShortQ.push_all (ShortQ.push_all q cs) ds = ShortQ.push_all q (cs ++ ds).
Proof. unfold ShortQ.push_all. rewrite fold_left_app. reflexivity. Qed.

Lemma empty_live {N} (q : ShortQ.t N) :
  ShortQ.empty q = false ↔ ShortQ.live q ≠ [].
Proof. unfold ShortQ.empty. destruct (ShortQ.live q); split; congruence. Qed.

Lemma push_not_empty {N} (q : ShortQ.t N) c :
  (0 < N)%nat → ShortQ.empty (ShortQ.push q c) = false.
Proof.
  intros HN. apply empty_live. rewrite push_live.
  unfold ShortQ.free_size, ShortQ.size.
  destruct (Z.ltb_spec 0 (Z.of_nat N - Z.of_nat (length (ShortQ.live q)))) as [_|Hfull].
  - destruct (ShortQ.live q); discriminate.
  - destruct (ShortQ.live q); [simpl in Hfull; lia | discriminate].
Qed.

Lemma crypt_range_length c p : length (crypt_range c p) = length p.
Proof. unfold crypt_range. apply length_imap. Qed.

(** ** The prepare scan *)

Section Prepare.

Variable crypto : Crypto.

(** The scan freezes the first slot, from [i] on, whose tag equals the
    argument, and otherwise changes nothing. *)
Lemma prepare_scan_spec a k : ∀ i s,
  (prepare_scan crypto a k i s = (false, s)
   ∧ ∀ j, (i ≤ j < i + k)%nat → addr (slot s j) ≠ a)
  ∨ ∃ j, (i ≤ j < i + k)%nat ∧ addr (slot s j) = a
         ∧ (∀ j', (i ≤ j' < j)%nat → addr (slot s j') ≠ a)
         ∧ prepare_scan crypto a k i s = (true, freeze crypto j s).
Proof.
  induction k as [|k IH]; intros i s; simpl.
  - left. split; [reflexivity | intros j Hj; lia].
  - destruct (Z.eqb_spec (addr (slot s i)) a) as [Heq|Hne].
    + right. exists i. repeat split; try lia; auto.
    + destruct (IH (S i) s) as [[Hno Hall]|(j & Hj & Haddr & Hbefore & Hscan)].
      * left. split; [exact Hno |].
        intros j Hj. destruct (decide (j = i)) as [->|Hji]; [exact Hne |].
        apply Hall. lia.
      * right. exists j. repeat split; try lia; auto.
        intros j' Hj'. destruct (decide (j' = i)) as [->|Hji]; [exact Hne |].
        apply Hbefore. lia.
Qed.

Lemma prepare_success a s s' :
  prepare_to_send_to crypto a s = (true, s') →
  sending s = None ∧
  ∃ i, (i < PACKET_QUEUE_LEN)%nat ∧ addr (slot s i) = a
       ∧ (∀ j, (j < i)%nat → addr (slot s j) ≠ a)
       ∧ s' = freeze crypto i s.
Proof.
  unfold prepare_to_send_to. destruct (sending s); [discriminate |].
  intros Hscan. split; [reflexivity |].
  destruct (prepare_scan_spec a PACKET_QUEUE_LEN 0%nat s)
    as [[Hno _]|(j & Hj & Haddr & Hbefore & Hyes)].
  - rewrite Hno in Hscan. discriminate.
  - rewrite Hyes in Hscan. exists j. repeat split; try lia; auto.
    + intros j' Hj'. apply Hbefore. lia.
    + congruence.
Qed.

Lemma prepare_failure a s s' :
  prepare_to_send_to crypto a s = (false, s') → s' = s.
Proof.
  unfold prepare_to_send_to. destruct (sending s); [congruence |].
  destruct (prepare_scan_spec a PACKET_QUEUE_LEN 0%nat s)
    as [[Hno _]|(j & _ & _ & _ & Hyes)]; congruence.
Qed.

(** A slot whose tag is a [uint8_t] value is a slot of the table. *)
Lemma slot_tag_in_table s i :
  0 ≤ addr (slot s i) → ∃ it, que s !! i = Some it ∧ slot s i = it.
Proof.
  unfold slot. destruct (que s !! i) as [it|]; simpl; [eauto | lia].
Qed.

Lemma freeze_slot_other i j s :
  i ≠ j → slot (freeze crypto i s) j = slot s j.
Proof.
  intros Hij. unfold slot, freeze; simpl.
  rewrite list_lookup_insert_ne; auto.
Qed.

Lemma freeze_slot_self i s :
  (i < length (que s))%nat →
  slot (freeze crypto i s) i =
  {| addr := -2;
     packet := if negb (addr (slot s i) =? SYNC_ADDR)
               then encrypt_decrypt crypto (packet (slot s i))
               else packet (slot s i);
     time := time (slot s i) |}.
Proof.
  intros Hi. unfold slot at 1, freeze; simpl.
  rewrite list_lookup_insert_eq; auto.
Qed.

Lemma freeze_cmac i s :
  ShortQ.live (cmac (freeze crypto i s)) =
  take 6 (cmac_tag crypto (ShortQ.live (packet (slot s i))) false ++ [0xAA; 0xAA]).
Proof.
  unfold freeze; simpl. unfold cmac_fill.
  change (ShortQ.push (ShortQ.push ?q 170) 170)
    with (ShortQ.push_all q [170; 170]).
  rewrite push_all_app, push_all_new_live. reflexivity.
Qed.

End Prepare.

(** C9: for every 8-bit argument, [0xFF] and [0xFE] included,
    [prepare_to_send_to] never selects a slot whose tag is [-1] (free) or
    [-2] (frozen): the slot it freezes carries the argument itself as tag,
    and every free or frozen slot is left as it was and is not the one
    [sending] is set to. *)
Theorem prepare_never_selects_free_or_frozen crypto a s :
  uint8 a →
  let s' := snd (prepare_to_send_to crypto a s) in
  (fst (prepare_to_send_to crypto a s) = true →
   ∃ i, sending s' = Some i ∧ addr (slot s i) = a
        ∧ addr (slot s i) ≠ -1 ∧ addr (slot s i) ≠ -2)
  ∧ ∀ j, addr (slot s j) = -1 ∨ addr (slot s j) = -2 →
         slot s' j = slot s j ∧ (sending s' = Some j → sending s = Some j).
Proof.
  intros Ha s'. subst s'.
  destruct (prepare_to_send_to crypto a s) as [[|] s'] eqn:Hprep; simpl.
  - apply prepare_success in Hprep as (_ & i & Hi & Haddr & _ & ->).
    split.
    + intros _. exists i. unfold uint8 in Ha. repeat split; auto; lia.
    + intros j Hj.
      assert (i ≠ j) as Hij by (intros ->; unfold uint8 in Ha; lia).
      split; [apply freeze_slot_other; exact Hij |].
      simpl. congruence.
  - apply prepare_failure in Hprep as ->.
    split; [discriminate | auto].
Qed.

Lemma prepare_never_selects_free_or_frozen_witness :
  uint8 0xFF ∧ addr (slot scenario1 0) = -1 ∧
  slot (snd (prepare_to_send_to mock_crypto 0xFF scenario1)) 0 = slot scenario1 0.
Proof.
  assert (uint8 0xFF) as Ha by (unfold uint8; lia).
  split; [exact Ha |]. split; [reflexivity |].
  apply (prepare_never_selects_free_or_frozen mock_crypto 0xFF scenario1 Ha).
  left. reflexivity.
Defined.

(** C3: a successful [prepare_to_send_to] fills the MAC buffer with the tag
    of the payload as it stood before the call (the plaintext, bytes
    [0..size)), followed by the two filler bytes, and only then rewrites the
    payload: encrypted in place iff the slot's address was not [SYNC_ADDR];
    a sync payload stays as it was and still gets its tag. *)
Theorem prepare_macs_plaintext_then_encrypts crypto a s s' :
  uint8 a →
  prepare_to_send_to crypto a s = (true, s') →
  ∃ i, sending s' = Some i ∧ addr (slot s i) = a ∧ addr (slot s' i) = -2 ∧
       let p := ShortQ.live (packet (slot s i)) in
       ShortQ.live (cmac s') = take 6 (cmac_tag crypto p false ++ [0xAA; 0xAA])
       ∧ ShortQ.live (packet (slot s' i)) =
         if a =? SYNC_ADDR then p else crypt_range crypto p.
Proof.
  intros Ha Hprep.
  apply prepare_success in Hprep as (_ & i & Hi & Haddr & _ & ->).
  destruct (slot_tag_in_table s i) as (it & Hit & Hslot);
    [unfold uint8 in Ha; lia |].
  apply lookup_lt_Some in Hit.
  exists i. split; [reflexivity |]. split; [exact Haddr |].
  rewrite freeze_slot_self by exact Hit. simpl.
  split; [reflexivity |]. split; [apply freeze_cmac |].
  rewrite Haddr. destruct (a =? SYNC_ADDR); reflexivity.
Qed.

Lemma prepare_macs_plaintext_then_encrypts_witness :
  uint8 5 ∧
  ∃ i, sending (snd (prepare_to_send_to mock_crypto 5 scenario1)) = Some i ∧
       ShortQ.live (cmac (snd (prepare_to_send_to mock_crypto 5 scenario1))) =
       take 6 (cmac_tag mock_crypto (ShortQ.live (packet (slot scenario1 i))) false
               ++ [0xAA; 0xAA]).
Proof.
  assert (uint8 5) as Ha by (unfold uint8; lia).
  split; [exact Ha |].
  destruct (prepare_macs_plaintext_then_encrypts mock_crypto 5 scenario1
              (snd (prepare_to_send_to mock_crypto 5 scenario1)) Ha)
    as (i & Hs & _ & _ & Hmac & _); [vm_compute; reflexivity |].
  exists i. split; [exact Hs | exact Hmac].
Defined.

(** ** One [pop] of a frame in flight *)

Lemma pop_step s i :
  sending s = Some i → ShortQ.live (cmac s) ≠ [] →
  ∃ b rest, frame_left i s = b :: rest ∧ peek s = b ∧
            pop s = match rest with
                    | [] => (false, released i s)
                    | _ :: _ => (true, consume_one i s)
                    end.
Proof.
  intros Hs Hmac.
  unfold frame_left, peek, pop, consume_one, ShortQ.empty, ShortQ.peek, ShortQ.pop.
  rewrite Hs.
  destruct (ShortQ.live (prologue s)) as [|b pro] eqn:Hpro; simpl.
  - destruct (ShortQ.live (packet (slot s i))) as [|b pay] eqn:Hpay; simpl.
    + destruct (ShortQ.live (cmac s)) as [|b mac] eqn:Hcm; [congruence |].
      exists b, mac. simpl. split; [reflexivity |]. split; [reflexivity |].
      destruct mac; reflexivity.
    + exists b, (pay ++ ShortQ.live (cmac s)).
      split; [reflexivity |]. split; [reflexivity |].
      destruct (pay ++ ShortQ.live (cmac s)) eqn:Hrest; [| reflexivity].
      apply app_eq_nil in Hrest as [_ ?]. congruence.
  - exists b, (pro ++ ShortQ.live (packet (slot s i)) ++ ShortQ.live (cmac s)).
    split; [reflexivity |]. split; [reflexivity |].
    destruct (pro ++ ShortQ.live (packet (slot s i)) ++ ShortQ.live (cmac s))
      eqn:Hrest; [| reflexivity].
    apply app_eq_nil in Hrest as [_ Hrest].
    apply app_eq_nil in Hrest as [_ ?]. congruence.
Qed.

Lemma consume_one_frame s i b rest :
  (i < length (que s))%nat → ShortQ.live (cmac s) ≠ [] →
  frame_left i s = b :: rest →
  frame_left i (consume_one i s) = rest
  ∧ sending (consume_one i s) = sending s
  ∧ length (que (consume_one i s)) = length (que s)
  ∧ (rest ≠ [] → ShortQ.live (cmac (consume_one i s)) ≠ [])
  ∧ released i (consume_one i s) = released i s.
Proof.
  intros Hi Hmac. unfold frame_left, consume_one.
  destruct (ShortQ.live (prologue s)) as [|b0 pro] eqn:Hpro; simpl.
  - destruct (ShortQ.live (packet (slot s i))) as [|b1 pay] eqn:Hpay; simpl.
    + intros Hfr. unfold slot in *. simpl. rewrite Hpro, Hpay, Hfr. simpl.
      repeat split; auto.
    + intros [= -> <-]. rewrite slot_set_slot_eq by exact Hi. simpl.
      rewrite Hpro. simpl.
      repeat split; auto.
      * apply length_insert.
      * unfold released; simpl. rewrite list_insert_insert_eq. reflexivity.
  - intros [= -> <-]. unfold slot. simpl. repeat split; auto.
Qed.

(** Draining serves exactly the bytes left of the frame and releases the
    slot, as soon as the fuel covers them. *)
Lemma drain_frame i : ∀ fuel s,
  sending s = Some i → (i < length (que s))%nat →
  ShortQ.live (cmac s) ≠ [] →
  (length (frame_left i s) ≤ fuel)%nat →
  drain fuel s = Some (frame_left i s, released i s).
Proof.
  induction fuel as [|fuel IH]; intros s Hs Hi Hmac Hfuel.
  - destruct (pop_step s i Hs Hmac) as (b & rest & Hfr & _).
    rewrite Hfr in Hfuel. simpl in Hfuel. lia.
  - destruct (pop_step s i Hs Hmac) as (b & rest & Hfr & Hpeek & Hpop).
    destruct (consume_one_frame s i b rest Hi Hmac Hfr)
      as (Hfr' & Hs' & Hlen' & Hmac' & Hrel).
    simpl. rewrite Hpeek, Hpop, Hfr.
    destruct rest as [|b' rest]; [reflexivity |].
    rewrite IH.
    + rewrite Hfr', Hrel. reflexivity.
    + congruence.
    + lia.
    + apply Hmac'. discriminate.
    + rewrite Hfr'. rewrite Hfr in Hfuel. simpl in *. lia.
Qed.

(** ** The frame *)

(** The length byte: below 128 the sum sits in the low seven bits and bit 7
    is the sync flag. *)
Lemma length_byte_bits (n : nat) (sync : bool) :
  (n < 128)%nat →
  let L := to_uint8 (Z.lor (Z.of_nat n) (if sync then 0x80 else 0x00)) in
  Z.land L 0x7F = Z.of_nat n ∧ Z.testbit L 7 = sync.
Proof.
  intros Hn.
  do 128 (destruct n as [|n]; [destruct sync; vm_compute; split; reflexivity |]).
  lia.
Qed.

Lemma freeze_prologue crypto i s :
  ShortQ.live (prologue (freeze crypto i s)) =
  [0xAA; 0xAA; 0x2D; 0xD4;
   to_uint8 (Z.lor (ShortQ.size (packet (slot s i))
                    + ShortQ.size (cmac_fill crypto (ShortQ.data (packet (slot s i)))
                                     false (ShortQ.clear (cmac s))))
                   (if addr (slot s i) =? SYNC_ADDR then 0x80 else 0x00))].
Proof.
  unfold freeze; simpl. reflexivity.
Qed.

(** C2: once [prepare_to_send_to] has frozen a slot that held the plaintext
    payload [p], the bytes obtained by [peek] then [pop], repeated until
    [pop] returns false, are [0xAA 0xAA 0x2D 0xD4 L], the payload
    (encrypted in place iff the address was not [SYNC_ADDR]), the MAC bytes,
    and [0xAA 0xAA]; the low seven bits of [L] are the payload size plus the
    MAC size and its high bit is set iff the address was [SYNC_ADDR].  The
    payload fits its 76-byte buffer and the tag leaves room for the two
    fillers in the 6-byte MAC buffer. *)
Theorem drained_frame_shape crypto a s s' i :
  uint8 a →
  prepare_to_send_to crypto a s = (true, s') →
  sending s' = Some i →
  let p := ShortQ.live (packet (slot s i)) in
  let mac := cmac_tag crypto p false in
  (length p ≤ SENT_PACKET_LEN)%nat →
  (length mac + 2 ≤ 6)%nat →
  ∀ fuel, (5 + length p + length mac + 2 ≤ fuel)%nat →
  ∃ L final,
    drain fuel s' =
      Some ([0xAA; 0xAA; 0x2D; 0xD4; L]
            ++ (if a =? SYNC_ADDR then p else crypt_range crypto p)
            ++ mac ++ [0xAA; 0xAA], final)
    ∧ Z.land L 0x7F = Z.of_nat (length p + length mac)
    ∧ Z.testbit L 7 = (a =? SYNC_ADDR)
    ∧ sending final = None.
Proof.
  intros Ha Hprep Hsend p mac Hp Hmac fuel Hfuel.
  apply prepare_success in Hprep as (_ & i' & Hi & Haddr & _ & ->).
  simpl in Hsend. injection Hsend as ->.
  destruct (slot_tag_in_table s i) as (it & Hit & Hslot);
    [unfold uint8 in Ha; lia |].
  apply lookup_lt_Some in Hit.
  assert (ShortQ.live (cmac (freeze crypto i s)) = mac ++ [0xAA; 0xAA]) as Hcm.
  { rewrite freeze_cmac. apply take_ge. rewrite length_app. simpl. fold p mac. lia. }
  assert (ShortQ.live (packet (slot (freeze crypto i s) i)) =
          if a =? SYNC_ADDR then p else crypt_range crypto p) as Hpay.
  { rewrite freeze_slot_self by exact Hit. simpl. rewrite Haddr.
    destruct (a =? SYNC_ADDR); reflexivity. }
  set (L := to_uint8 (Z.lor (Z.of_nat (length p + length mac))
                            (if a =? SYNC_ADDR then 0x80 else 0x00))).
  assert (ShortQ.live (prologue (freeze crypto i s)) = [0xAA; 0xAA; 0x2D; 0xD4; L])
    as Hpro.
  { rewrite freeze_prologue. unfold L, ShortQ.size, cmac_fill, ShortQ.data.
    rewrite push_all_new_live, Haddr. fold p mac.
    rewrite take_ge by lia. rewrite Nat2Z.inj_add. reflexivity. }
  exists L, (released i (freeze crypto i s)).
  rewrite (drain_frame i fuel (freeze crypto i s)).
  - unfold frame_left. rewrite Hpro, Hpay, Hcm.
    split; [reflexivity |].
    destruct (length_byte_bits (length p + length mac) (a =? SYNC_ADDR)) as [Hlow Hhigh].
    { unfold SENT_PACKET_LEN in Hp. lia. }
    split; [exact Hlow |]. split; [exact Hhigh | reflexivity].
  - reflexivity.
  - unfold freeze; simpl. rewrite length_insert. exact Hit.
  - rewrite Hcm. destruct mac; discriminate.
  - unfold frame_left. rewrite Hpro, Hpay, Hcm.
    rewrite !length_app. simpl.
    destruct (a =? SYNC_ADDR); [| rewrite crypt_range_length]; fold p; lia.
Qed.

Lemma drained_frame_shape_witness :
  uint8 5 ∧
  prepare_to_send_to mock_crypto 5 scenario1 =
    (true, snd (prepare_to_send_to mock_crypto 5 scenario1)) ∧
  ∃ L final,
    drain 17 (snd (prepare_to_send_to mock_crypto 5 scenario1)) =
      Some ([0xAA; 0xAA; 0x2D; 0xD4; L]
            ++ [0xFA; 0xEE; 0xDD; 0xCC; 0xBB; 0xAA]
            ++ [0x04; 0x01; 0; 0] ++ [0xAA; 0xAA], final)
    ∧ Z.land L 0x7F = 10 ∧ Z.testbit L 7 = false ∧ sending final = None.
Proof.
  assert (uint8 5) as Ha by (unfold uint8; lia).
  split; [exact Ha |]. split; [vm_compute; reflexivity |].
  apply (drained_frame_shape mock_crypto 5 scenario1
           (snd (prepare_to_send_to mock_crypto 5 scenario1)) 31 Ha).
  - vm_compute. reflexivity.
  - vm_compute. reflexivity.
  - vm_compute. lia.
  - vm_compute. lia.
  - vm_compute. lia.
Defined.

(** ** The reserve scan *)

Lemma want_scan_S a bytes curtime ri s :
  want_scan a bytes curtime (S ri) s =
  if rule1 a bytes (slot s ri) then (Some ri, s)
  else if rule2 (packet_max_age s) curtime (slot s ri)
       then (Some ri, set_slot s ri (claimed a curtime))
       else want_scan a bytes curtime ri s.
Proof.
  simpl. unfold rule1, rule2, claimed.
  destruct (negb (a =? SYNC_ADDR) && (addr (slot s ri) =? a)
            && (bytes <? ShortQ.free_size (packet (slot s ri)))); [reflexivity |].
  destruct ((addr (slot s ri) =? -1)
            || (time (slot s ri) + packet_max_age s <? curtime)); [| reflexivity].
  destruct (a =? SYNC_ADDR); reflexivity.
Qed.

(** The three ways the scan of the slots below [k] ends: nothing eligible;
    rule 1 on the first eligible slot; rule 2 on the first eligible slot. *)
Lemma want_scan_cases a bytes curtime s : ∀ k,
  (want_scan a bytes curtime k s = (None, s)
   ∧ ∀ j, (j < k)%nat → passed_over a bytes curtime s j)
  ∨ (∃ ri, (ri < k)%nat
           ∧ (∀ j, (ri < j < k)%nat → passed_over a bytes curtime s j)
           ∧ rule1 a bytes (slot s ri) = true
           ∧ want_scan a bytes curtime k s = (Some ri, s))
  ∨ (∃ ri, (ri < k)%nat
           ∧ (∀ j, (ri < j < k)%nat → passed_over a bytes curtime s j)
           ∧ rule1 a bytes (slot s ri) = false
           ∧ rule2 (packet_max_age s) curtime (slot s ri) = true
           ∧ want_scan a bytes curtime k s
             = (Some ri, set_slot s ri (claimed a curtime))).
Proof.
  induction k as [|k IH].
  - left. split; [reflexivity | intros j Hj; lia].
  - rewrite want_scan_S.
    destruct (rule1 a bytes (slot s k)) eqn:H1.
    { right. left. exists k.
      split; [lia |]. split; [intros j Hj; lia |]. split; [exact H1 | reflexivity]. }
    destruct (rule2 (packet_max_age s) curtime (slot s k)) eqn:H2.
    { right. right. exists k.
      split; [lia |]. split; [intros j Hj; lia |]. auto. }
    assert (∀ ri j, (ri < j < S k)%nat →
                    (∀ j', (ri < j' < k)%nat → passed_over a bytes curtime s j') →
                    passed_over a bytes curtime s j) as Hext.
    { intros ri j Hj Hall. destruct (decide (j = k)) as [->|Hjk].
      - split; assumption.
      - apply Hall. lia. }
    destruct IH as [[Hnone Hall]|[(ri & Hri & Hall & Hr1 & Hscan)
                                 |(ri & Hri & Hall & Hr1 & Hr2 & Hscan)]].
    + left. split; [exact Hnone |].
      intros j Hj. destruct (decide (j = k)) as [->|Hjk].
      * split; assumption.
      * apply Hall. lia.
    + right. left. exists ri.
      split; [lia |]. split; [intros j Hj; eapply Hext; eauto |]. auto.
    + right. right. exists ri.
      split; [lia |]. split; [intros j Hj; eapply Hext; eauto |]. auto.
Qed.

(** The first eligible slot decides the call. *)
Lemma want_first_eligible a bytes curtime s ri :
  (ri < PACKET_QUEUE_LEN)%nat →
  (∀ j, (ri < j < PACKET_QUEUE_LEN)%nat → passed_over a bytes curtime s j) →
  want_to_send_for a bytes curtime s =
  if rule1 a bytes (slot s ri) then (Some ri, s)
  else if rule2 (packet_max_age s) curtime (slot s ri)
       then (Some ri, set_slot s ri (claimed a curtime))
       else want_scan a bytes curtime ri s.
Proof.
  intros Hri. unfold want_to_send_for.
  generalize PACKET_QUEUE_LEN Hri. clear Hri.
  induction n as [|n IH]; intros Hri Hall; [lia |].
  destruct (decide (ri = n)) as [->|Hne].
  - apply want_scan_S.
  - rewrite want_scan_S.
    destruct (Hall n) as [-> ->]; [lia |].
    apply IH; [lia |]. intros j Hj. apply Hall. lia.
Qed.

(** C7, as the code has it: for a non-SYNC address [a], when slot [i] is
    bound to [a] with room for strictly more than [bytes] and the scan, which
    runs from slot 31 downwards, passes over every slot above [i] (none of
    them is free, stale, or bound to [a] with room), the call returns slot
    [i] for appending and leaves the whole queue, and so the slot's tag, time
    and bytes, as it was; the same call made again returns the same slot. *)
Theorem coalesce_on_first_eligible a bytes curtime s i :
  a ≠ SYNC_ADDR →
  (i < PACKET_QUEUE_LEN)%nat →
  addr (slot s i) = a →
  bytes < ShortQ.free_size (packet (slot s i)) →
  (∀ j, (i < j < PACKET_QUEUE_LEN)%nat → passed_over a bytes curtime s j) →
  want_to_send_for a bytes curtime s = (Some i, s).
Proof.
  intros Hns Hi Haddr Hroom Hall.
  rewrite (want_first_eligible a bytes curtime s i Hi Hall).
  unfold rule1.
  destruct (Z.eqb_spec a SYNC_ADDR); [contradiction |].
  destruct (Z.eqb_spec (addr (slot s i)) a); [| contradiction].
  destruct (Z.ltb_spec bytes (ShortQ.free_size (packet (slot s i)))); [| lia].
  reflexivity.
Qed.

(** Scenario 1 of the specification: the second reserve for address 5 gets
    slot 31 again. *)
Lemma coalesce_on_first_eligible_witness :
  let s := snd (want_to_send_for 5 3 0 (PacketQ_new 60)) in
  addr (slot s 31) = 5 ∧ want_to_send_for 5 2 1 s = (Some 31%nat, s).
Proof.
  intros s. split; [reflexivity |].
  apply coalesce_on_first_eligible.
  - discriminate.
  - unfold PACKET_QUEUE_LEN. lia.
  - reflexivity.
  - reflexivity.
  - unfold PACKET_QUEUE_LEN. intros j Hj. lia.
Defined.

(** C7, as stated, fails: in [reopened] slot 30 is bound to address 5 and
    has 75 free bytes, yet a reserve of one byte for address 5 meets the free
    slot 31 first, claims it and returns it; slot 30 is not the one
    returned and the queue has changed. *)
Lemma coalesce_missed_behind_free_slot :
  5 ≠ SYNC_ADDR
  ∧ addr (slot reopened 30) = 5
  ∧ ShortQ.free_size (packet (slot reopened 30)) = 75
  ∧ addr (slot reopened 31) = -1
  ∧ fst (want_to_send_for 5 1 2 reopened) = Some 31%nat
  ∧ slot (snd (want_to_send_for 5 1 2 reopened)) 31
    = {| addr := 5; packet := ShortQ.Mk [5]; time := 2 |}
  ∧ want_to_send_for 5 1 2 reopened ≠ (Some 30%nat, reopened).
Proof.
  split; [discriminate |].
  do 5 (split; [vm_compute; reflexivity |]).
  vm_compute. discriminate.
Qed.

(** ** A stale frozen slot *)

(** C1 fails on the code: in [frozen5] slot 31 is frozen ([addr = -2],
    [sending] points to it) with [time = 0]; a reserve for address 9 at
    time 61, past [packet_max_age = 60], finds the slot stale under rule 2,
    claims it and returns it, so its tag, time and packet are overwritten
    while the frame is still in flight. *)
Theorem stale_frozen_slot_is_claimed :
  addr (slot frozen5 31) = -2
  ∧ sending frozen5 = Some 31%nat
  ∧ time (slot frozen5 31) = 0
  ∧ ShortQ.live (packet (slot frozen5 31)) = [0xFA]
  ∧ fst (want_to_send_for 9 1 61 frozen5) = Some 31%nat
  ∧ slot (snd (want_to_send_for 9 1 61 frozen5)) 31
    = {| addr := 9; packet := ShortQ.Mk [9]; time := 61 |}
  ∧ sending (snd (want_to_send_for 9 1 61 frozen5)) = Some 31%nat.
Proof.
  repeat split; vm_compute; reflexivity.
Qed.

(** As long as it is not stale, a frozen slot is passed over for every
    address: the call neither returns it nor changes it. *)
Lemma fresh_frozen_slot_passed_over a bytes curtime s j :
  uint8 a → addr (slot s j) = -2 →
  curtime ≤ time (slot s j) + packet_max_age s →
  passed_over a bytes curtime s j.
Proof.
  intros Ha Hfrozen Hfresh. unfold passed_over, rule1, rule2, uint8 in *.
  rewrite Hfrozen.
  destruct (Z.eqb_spec (-2) a); [lia |].
  destruct (Z.ltb_spec (time (slot s j) + packet_max_age s) curtime); [lia |].
  rewrite andb_false_r. split; reflexivity.
Qed.

Lemma fresh_frozen_slot_untouched a bytes curtime s j :
  uint8 a → addr (slot s j) = -2 →
  curtime ≤ time (slot s j) + packet_max_age s →
  fst (want_to_send_for a bytes curtime s) ≠ Some j
  ∧ slot (snd (want_to_send_for a bytes curtime s)) j = slot s j.
Proof.
  intros Ha Hfrozen Hfresh.
  destruct (fresh_frozen_slot_passed_over a bytes curtime s j Ha Hfrozen Hfresh)
    as [Hp1 Hp2].
  unfold want_to_send_for.
  destruct (want_scan_cases a bytes curtime s PACKET_QUEUE_LEN)
    as [[-> _]|[(ri & _ & _ & Hr1 & ->)|(ri & _ & _ & _ & Hr2 & ->)]]; simpl.
  - split; [discriminate | reflexivity].
  - split; [| reflexivity]. intros [= ->]. congruence.
  - assert (ri ≠ j) by (intros ->; congruence).
    split; [congruence | apply slot_set_slot_ne; assumption].
Qed.

(** ** Reachable states *)

Lemma want_frame a bytes curtime s :
  let s' := snd (want_to_send_for a bytes curtime s) in
  (s' = s ∨ ∃ ri, s' = set_slot s ri (claimed a curtime))
  ∧ length (que s') = length (que s)
  ∧ sending s' = sending s ∧ prologue s' = prologue s ∧ cmac s' = cmac s.
Proof.
  unfold want_to_send_for.
  destruct (want_scan_cases a bytes curtime s PACKET_QUEUE_LEN)
    as [[-> _]|[(ri & _ & _ & _ & ->)|(ri & _ & _ & _ & _ & ->)]]; simpl.
  - repeat split; auto.
  - repeat split; auto.
  - repeat split; eauto. apply length_insert.
Qed.

Lemma reachable_in_flight_ok crypto ok max_age s :
  reachable_via crypto ok max_age s → in_flight_ok s.
Proof.
  induction 1 as [|s c Hreach [Hlen Hfl] Hty Hok].
  - split; [apply length_replicate | intros i [=]].
  - destruct c as [a bytes curtime|a| | |i c]; simpl.
    + destruct (want_frame a bytes curtime s) as (_ & Hl & Hs & _ & Hc).
      split; [congruence |]. intros i Hi. rewrite Hc. apply Hfl. congruence.
    + destruct (prepare_to_send_to crypto a s) as [[|] s'] eqn:Hprep; simpl.
      * apply prepare_success in Hprep as (_ & i & Hi & _ & _ & ->).
        split; [unfold freeze; simpl; rewrite length_insert; exact Hlen |].
        intros i' [= <-]. split; [exact Hi |].
        unfold freeze; simpl. apply push_not_empty. lia.
      * apply prepare_failure in Hprep as ->. split; assumption.
    + split; assumption.
    + destruct (sending s) as [i|] eqn:Hs.
      * destruct (Hfl i eq_refl) as [Hi Hmac]. apply empty_live in Hmac.
        destruct (pop_step s i Hs Hmac) as (b & rest & Hfr & _ & ->).
        destruct (consume_one_frame s i b rest) as (_ & Hs' & Hl' & Hmac' & _);
          [lia | exact Hmac | exact Hfr |].
        destruct rest as [|b' rest]; simpl.
        -- split; [unfold released; simpl; rewrite length_insert; exact Hlen
                  | intros i' [=]].
        -- split; [congruence |]. intros i' Hi'.
           rewrite Hs', Hs in Hi'. inversion Hi'; subst i'.
           split; [assumption |]. apply empty_live. apply Hmac'. discriminate.
      * unfold pop. rewrite Hs. split; [assumption |].
        simpl. intros i' Hi'. congruence.
    + split; [unfold push_to; simpl; rewrite length_insert; exact Hlen |].
      exact Hfl.
Qed.

Lemma frozen5_reachable ok :
  ok (PacketQ_new 60) (WantToSendFor 5 3 0) →
  ok (snd (want_to_send_for 5 3 0 (PacketQ_new 60))) (PrepareToSendTo 5) →
  reachable_via mock_crypto ok 60 frozen5.
Proof.
  intros Hok1 Hok2.
  change frozen5 with
    (exec mock_crypto (PrepareToSendTo 5)
       (exec mock_crypto (WantToSendFor 5 3 0) (PacketQ_new 60))).
  apply reach_call; [apply reach_call; [apply reach_new | | exact Hok1] | | exact Hok2];
    simpl; unfold uint8; lia.
Qed.

(** C5: whenever a frame is in flight ([sending] points to slot [i], in a
    state the queue can reach), [pop] takes exactly one byte, the one [peek]
    shows, from the first non-empty of prologue, payload and MAC buffer, in
    that order.  It returns true iff bytes of the frame remain after it.
    When none remains, which is the pop that empties the MAC buffer, it
    returns false and releases the frame: prologue and MAC buffer empty, the
    slot back to [addr = -1], [time = 0] and an empty packet, [sending]
    null. *)
Theorem pop_serves_one_byte crypto max_age s i :
  reachable crypto max_age s →
  sending s = Some i →
  ∃ b rest,
    frame_left i s = b :: rest ∧ peek s = b
    ∧ (rest ≠ [] →
       pop s = (true, consume_one i s)
       ∧ frame_left i (consume_one i s) = rest
       ∧ sending (consume_one i s) = Some i)
    ∧ (rest = [] →
       ShortQ.live (cmac s) = [b]
       ∧ pop s = (false, released i s)
       ∧ slot (released i s) i = {| addr := -1; packet := ShortQ.Mk []; time := 0 |}
       ∧ prologue (released i s) = ShortQ.Mk []
       ∧ cmac (released i s) = ShortQ.Mk []
       ∧ sending (released i s) = None).
Proof.
  intros Hreach Hs.
  destruct (reachable_in_flight_ok _ _ _ _ Hreach) as [Hlen Hfl].
  destruct (Hfl i Hs) as [Hi Hmac]. apply empty_live in Hmac.
  destruct (pop_step s i Hs Hmac) as (b & rest & Hfr & Hpeek & Hpop).
  destruct (consume_one_frame s i b rest) as (Hfr' & Hs' & _);
    [lia | exact Hmac | exact Hfr |].
  exists b, rest. split; [exact Hfr |]. split; [exact Hpeek |]. split.
  - intros Hrest. destruct rest; [contradiction |].
    split; [exact Hpop |]. split; [exact Hfr' | congruence].
  - intros ->. split.
    + unfold frame_left in Hfr.
      destruct (ShortQ.live (prologue s)) as [|? [|? ?]]; simpl in Hfr;
        try discriminate.
      * destruct (ShortQ.live (packet (slot s i))) as [|? [|? ?]]; simpl in Hfr;
          try discriminate.
        -- exact Hfr.
        -- injection Hfr as _ Hnil. congruence.
      * injection Hfr as _ Hnil. apply app_eq_nil in Hnil as [_ ?]. congruence.
    + split; [exact Hpop |].
      split; [| repeat split].
      unfold released, slot; simpl. rewrite list_lookup_insert_eq by lia.
      reflexivity.
Qed.

Lemma pop_serves_one_byte_witness :
  reachable mock_crypto 60 frozen5 ∧ sending frozen5 = Some 31%nat ∧
  ∃ b rest, frame_left 31 frozen5 = b :: rest ∧ peek frozen5 = b.
Proof.
  assert (reachable mock_crypto 60 frozen5) as Hreach
    by (apply frozen5_reachable; exact I).
  split; [exact Hreach |]. split; [reflexivity |].
  destruct (pop_serves_one_byte mock_crypto 60 frozen5 31 Hreach eq_refl)
    as (b & rest & Hfr & Hpeek & _).
  exists b, rest. split; assumption.
Defined.

(** ** Open slots and their addresses *)




(** * Further properties of the queue *)

(** ** Reserving *)

(** What a call returns and leaves behind, by the first eligible slot. *)
Lemma want_outcome a bytes curtime s :
  match fst (want_to_send_for a bytes curtime s) with
  | None =>
      snd (want_to_send_for a bytes curtime s) = s
      ∧ ∀ j, (j < PACKET_QUEUE_LEN)%nat → passed_over a bytes curtime s j
  | Some ri =>
      (ri < PACKET_QUEUE_LEN)%nat
      ∧ (∀ j, (ri < j < PACKET_QUEUE_LEN)%nat → passed_over a bytes curtime s j)
      ∧ ((rule1 a bytes (slot s ri) = true
          ∧ snd (want_to_send_for a bytes curtime s) = s)
         ∨ (rule1 a bytes (slot s ri) = false
            ∧ rule2 (packet_max_age s) curtime (slot s ri) = true
            ∧ snd (want_to_send_for a bytes curtime s)
              = set_slot s ri (claimed a curtime)))
  end.
Proof.
  unfold want_to_send_for.
  destruct (want_scan_cases a bytes curtime s PACKET_QUEUE_LEN)
    as [[-> Hall]|[(ri & Hri & Hall & Hr1 & ->)|(ri & Hri & Hall & Hr1 & Hr2 & ->)]];
    simpl.
  - split; [reflexivity | exact Hall].
  - split; [exact Hri |]. split; [exact Hall |]. left. split; [exact Hr1 | reflexivity].
  - split; [exact Hri |]. split; [exact Hall |]. right. repeat split; assumption.
Qed.

(** X1: [want_to_send_for] returns [nullptr] exactly when neither rule fires
    on any of the 32 slots, and then the queue is left as it was. *)
Theorem want_full_iff a bytes curtime s :
  (fst (want_to_send_for a bytes curtime s) = None
   ↔ ∀ j, (j < PACKET_QUEUE_LEN)%nat → passed_over a bytes curtime s j)
  ∧ (fst (want_to_send_for a bytes curtime s) = None
     → snd (want_to_send_for a bytes curtime s) = s).
Proof.
  pose proof (want_outcome a bytes curtime s) as H.
  destruct (fst (want_to_send_for a bytes curtime s)) as [ri|].
  - split; [split; [discriminate |] | discriminate].
    intros Hall. destruct H as (Hri & _ & [[Hr _]|(_ & Hr & _)]);
      destruct (Hall ri Hri) as [Hp1 Hp2]; congruence.
  - destruct H as [Hs Hall]. split; [split; auto | auto].
Qed.

(** X2: [want_to_send_for] changes at most the slot it returns: every other
    slot, the number of slots, [sending], the prologue and MAC buffers and
    [packet_max_age] are as before, and a returned slot lies in the table. *)
Theorem want_touches_only_returned a bytes curtime s :
  let r := fst (want_to_send_for a bytes curtime s) in
  let s' := snd (want_to_send_for a bytes curtime s) in
  (∀ j, r ≠ Some j → slot s' j = slot s j)
  ∧ (∀ ri, r = Some ri → (ri < PACKET_QUEUE_LEN)%nat)
  ∧ length (que s') = length (que s)
  ∧ sending s' = sending s ∧ prologue s' = prologue s ∧ cmac s' = cmac s
  ∧ packet_max_age s' = packet_max_age s.
Proof.
  pose proof (want_outcome a bytes curtime s) as H. simpl.
  destruct (fst (want_to_send_for a bytes curtime s)) as [ri|].
  - destruct H as (Hri & _ & [[_ ->]|(_ & _ & ->)]).
    + repeat split; auto. intros ri' [= <-]. exact Hri.
    + split; [| split; [| split; [apply length_insert | repeat split]]].
      * intros j Hj. apply slot_set_slot_ne. congruence.
      * intros ri' [= <-]. exact Hri.
  - destruct H as [-> _]. repeat split; auto. intros ri [=].
Qed.

(** X3: a reserve for [SYNC_ADDR] never coalesces: whenever it returns a
    slot, that slot was free or stale and is now freshly claimed, tagged
    [0x21], stamped [curtime] and empty. *)
Theorem sync_reserve_is_fresh bytes curtime s ri s' :
  length (que s) = PACKET_QUEUE_LEN →
  want_to_send_for SYNC_ADDR bytes curtime s = (Some ri, s') →
  rule2 (packet_max_age s) curtime (slot s ri) = true
  ∧ slot s' ri = {| addr := 0x21; packet := ShortQ.Mk []; time := curtime |}.
Proof.
  intros Hlen Hw.
  pose proof (want_outcome SYNC_ADDR bytes curtime s) as H.
  rewrite Hw in H. simpl in H.
  destruct H as (Hri & _ & [[Hr1 _]|(_ & Hr2 & ->)]).
  - unfold rule1 in Hr1. simpl in Hr1. discriminate.
  - split; [exact Hr2 |]. rewrite slot_set_slot_eq by lia. reflexivity.
Qed.

Lemma sync_reserve_is_fresh_witness :
  ∃ s', want_to_send_for SYNC_ADDR 4 0 scenario1 = (Some 30%nat, s')
        ∧ slot s' 30 = {| addr := 0x21; packet := ShortQ.Mk []; time := 0 |}.
Proof.
  exists (snd (want_to_send_for SYNC_ADDR 4 0 scenario1)).
  assert (want_to_send_for SYNC_ADDR 4 0 scenario1
          = (Some 30%nat, snd (want_to_send_for SYNC_ADDR 4 0 scenario1))) as Hw
    by (vm_compute; reflexivity).
  split; [exact Hw |].
  apply (sync_reserve_is_fresh 4 0 scenario1 30 _ eq_refl Hw).
Defined.

(** X4: two reserves for [SYNC_ADDR] in a row never share a buffer: as long
    as the slot the first one claimed has not aged out at the second call,
    the second call returns another slot (or none). *)
Theorem sync_reserves_do_not_share b1 t1 b2 t2 s r1 s1 r2 s2 :
  length (que s) = PACKET_QUEUE_LEN →
  want_to_send_for SYNC_ADDR b1 t1 s = (Some r1, s1) →
  t2 ≤ t1 + packet_max_age s →
  want_to_send_for SYNC_ADDR b2 t2 s1 = (Some r2, s2) →
  r1 ≠ r2.
Proof.
  intros Hlen Hw1 Hage Hw2 <-.
  pose proof (want_outcome SYNC_ADDR b1 t1 s) as H1.
  rewrite Hw1 in H1. simpl in H1.
  destruct H1 as (Hri & _ & [[Hr1 _]|(_ & _ & ->)]);
    [unfold rule1 in Hr1; simpl in Hr1; discriminate |].
  pose proof (want_outcome SYNC_ADDR b2 t2 (set_slot s r1 (claimed SYNC_ADDR t1)))
    as H2.
  rewrite Hw2 in H2. simpl in H2.
  destruct H2 as (_ & _ & [[Hr1 _]|(_ & Hr2 & _)]);
    [unfold rule1 in Hr1; simpl in Hr1; discriminate |].
  rewrite slot_set_slot_eq in Hr2 by lia.
  unfold rule2 in Hr2. simpl in Hr2.
  destruct (Z.ltb_spec (t1 + packet_max_age s) t2); [lia | discriminate].
Qed.

Lemma sync_reserves_do_not_share_witness :
  ∃ s1 s2, want_to_send_for SYNC_ADDR 4 0 (PacketQ_new 60) = (Some 31%nat, s1)
           ∧ want_to_send_for SYNC_ADDR 1 0 s1 = (Some 30%nat, s2)
           ∧ 31%nat ≠ 30%nat.
Proof.
  set (s1 := snd (want_to_send_for SYNC_ADDR 4 0 (PacketQ_new 60))).
  set (s2 := snd (want_to_send_for SYNC_ADDR 1 0 s1)).
  assert (want_to_send_for SYNC_ADDR 4 0 (PacketQ_new 60) = (Some 31%nat, s1))
    as H1 by (vm_compute; reflexivity).
  assert (want_to_send_for SYNC_ADDR 1 0 s1 = (Some 30%nat, s2))
    as H2 by (vm_compute; reflexivity).
  exists s1, s2. split; [exact H1 |]. split; [exact H2 |].
  apply (sync_reserves_do_not_share 4 0 1 0 (PacketQ_new 60) 31 s1 30 s2
           eq_refl H1 ltac:(simpl; lia) H2).
Defined.

(** X5: a successful reserve for an address below 128 returns a slot tagged
    with that address, and the returned buffer has room for strictly more
    than [bytes] whenever [bytes] plus the address byte of a non-SYNC packet
    stays below the 76-byte capacity. *)
Theorem reserved_slot_is_bound a bytes curtime s ri s' :
  0 ≤ a < 128 →
  length (que s) = PACKET_QUEUE_LEN →
  want_to_send_for a bytes curtime s = (Some ri, s') →
  addr (slot s' ri) = a
  ∧ (bytes + (if a =? SYNC_ADDR then 0 else 1) < 76 →
     bytes < ShortQ.free_size (packet (slot s' ri))).
Proof.
  intros Ha Hlen Hw.
  pose proof (want_outcome a bytes curtime s) as H.
  rewrite Hw in H. simpl in H.
  destruct H as (Hri & _ & [[Hr1 ->]|(_ & _ & ->)]).
  - unfold rule1 in Hr1.
    apply andb_prop in Hr1 as [Hr1 Hroom]. apply andb_prop in Hr1 as [_ Haddr].
    split; [apply Z.eqb_eq; exact Haddr | intros _; apply Z.ltb_lt; exact Hroom].
  - rewrite slot_set_slot_eq by lia. simpl.
    split; [apply to_int8_small; exact Ha |].
    unfold ShortQ.free_size, ShortQ.size, SENT_PACKET_LEN. simpl.
    destruct (a =? SYNC_ADDR); simpl; lia.
Qed.

Lemma reserved_slot_is_bound_witness :
  ∃ s', want_to_send_for 5 3 0 (PacketQ_new 60) = (Some 31%nat, s')
        ∧ addr (slot s' 31) = 5
        ∧ 3 < ShortQ.free_size (packet (slot s' 31)).
Proof.
  set (s' := snd (want_to_send_for 5 3 0 (PacketQ_new 60))).
  assert (want_to_send_for 5 3 0 (PacketQ_new 60) = (Some 31%nat, s')) as Hw
    by (vm_compute; reflexivity).
  exists s'. split; [exact Hw |].
  destruct (reserved_slot_is_bound 5 3 0 (PacketQ_new 60) 31 s'
              ltac:(lia) eq_refl Hw) as [Haddr Hroom].
  split; [exact Haddr | apply Hroom; simpl; lia].
Defined.

(** ** Preparing *)

(** X6: [prepare_to_send_to] returns true exactly when nothing is in
    flight and some slot of the table carries the requested tag; when it
    returns false the queue is left as it was. *)
Theorem prepare_succeeds_iff crypto a s :
  (fst (prepare_to_send_to crypto a s) = true
   ↔ sending s = None
     ∧ ∃ i, (i < PACKET_QUEUE_LEN)%nat ∧ addr (slot s i) = a)
  ∧ (fst (prepare_to_send_to crypto a s) = false
     → snd (prepare_to_send_to crypto a s) = s).
Proof.
  destruct (prepare_to_send_to crypto a s) as [[|] s'] eqn:Hprep; simpl.
  - apply prepare_success in Hprep as (Hidle & i & Hi & Haddr & _ & _).
    split; [| discriminate]. split; [| reflexivity].
    intros _. split; [exact Hidle | exists i; auto].
  - split; [| intros _; eapply prepare_failure; eauto].
    split; [discriminate |]. intros [Hidle (i & Hi & Haddr)].
    unfold prepare_to_send_to in Hprep. rewrite Hidle in Hprep.
    destruct (prepare_scan_spec crypto a PACKET_QUEUE_LEN 0%nat s)
      as [[_ Hall]|(j & _ & _ & _ & Hyes)]; [| congruence].
    exfalso. apply (Hall i); [lia | exact Haddr].
Qed.

(** X7: a successful [prepare_to_send_to] freezes the lowest-indexed slot
    carrying the tag and nothing else: that slot carried the requested
    address and is tagged [-2] afterwards, [sending] points to it, every lower
    slot carries another tag, every other slot is as before, and the frozen
    slot keeps its time and its payload size. *)
Theorem prepare_freezes_lowest crypto a s s' :
  uint8 a →
  prepare_to_send_to crypto a s = (true, s') →
  ∃ i, sending s' = Some i
       ∧ (i < PACKET_QUEUE_LEN)%nat
       ∧ addr (slot s i) = a
       ∧ addr (slot s' i) = -2
       ∧ (∀ j, (j < i)%nat → addr (slot s j) ≠ a)
       ∧ (∀ j, j ≠ i → slot s' j = slot s j)
       ∧ time (slot s' i) = time (slot s i)
       ∧ ShortQ.size (packet (slot s' i)) = ShortQ.size (packet (slot s i))
       ∧ length (que s') = length (que s)
       ∧ packet_max_age s' = packet_max_age s.
Proof.
  intros Ha Hprep.
  apply prepare_success in Hprep as (_ & i & Hi & Haddr & Hlow & ->).
  destruct (slot_tag_in_table s i) as (it & Hit & _);
    [unfold uint8 in Ha; lia |].
  apply lookup_lt_Some in Hit.
  exists i. split; [reflexivity |]. split; [exact Hi |]. split; [exact Haddr |].
  rewrite freeze_slot_self by exact Hit. simpl.
  split; [reflexivity |]. split; [exact Hlow |].
  split; [intros j Hj; apply freeze_slot_other; auto |].
  split; [reflexivity |]. split.
  - destruct (negb (addr (slot s i) =? SYNC_ADDR)); [| reflexivity].
    unfold ShortQ.size. simpl. rewrite length_imap. reflexivity.
  - split; [apply length_insert | reflexivity].
Qed.

(** Scenario 2 of the specification: of two SYNC slots the lower-indexed one
    is sent. *)
Lemma prepare_freezes_lowest_witness :
  let s := snd (want_to_send_for SYNC_ADDR 1 0
                  (snd (want_to_send_for SYNC_ADDR 4 0 (PacketQ_new 60)))) in
  uint8 SYNC_ADDR ∧
  ∃ i, sending (snd (prepare_to_send_to mock_crypto SYNC_ADDR s)) = Some i
       ∧ addr (slot s i) = SYNC_ADDR
       ∧ addr (slot (snd (prepare_to_send_to mock_crypto SYNC_ADDR s)) i) = -2
       ∧ ∀ j, (j < i)%nat → addr (slot s j) ≠ SYNC_ADDR.
Proof.
  intros s.
  assert (uint8 SYNC_ADDR) as Ha by (unfold uint8, SYNC_ADDR; lia).
  split; [exact Ha |].
  destruct (prepare_freezes_lowest mock_crypto SYNC_ADDR s
              (snd (prepare_to_send_to mock_crypto SYNC_ADDR s)) Ha)
    as (i & Hs & _ & Haddr & Hfrozen & Hlow & _); [vm_compute; reflexivity |].
  exists i. repeat split; assumption.
Defined.

(** ** A whole frame *)

Lemma freeze_frame_length crypto i s :
  (i < length (que s))%nat →
  (length (frame_left i (freeze crypto i s))
   ≤ 5 + length (ShortQ.live (packet (slot s i))) + 6)%nat.
Proof.
  intros Hi. unfold frame_left.
  rewrite freeze_prologue, freeze_cmac, freeze_slot_self by exact Hi.
  rewrite !length_app, length_take.
  set (m := (6 `min` _)%nat).
  assert (m ≤ 6)%nat as Hm by (subst m; lia). clearbody m.
  destruct (addr (slot s i) =? SYNC_ADDR); simpl; rewrite ?length_imap; lia.
Qed.

(** X8: preparing a frame and draining it to the end gives the queue back
    idle: [sending] is null, prologue and MAC buffer are empty, the slot that
    was sent is free ([addr = -1], [time = 0], no bytes) and every other
    slot is exactly as it was before [prepare_to_send_to].  At most
    [5 + size + 6] rounds of [peek] and [pop] are needed. *)
Theorem prepare_then_drain_releases crypto a s s' i fuel :
  uint8 a →
  prepare_to_send_to crypto a s = (true, s') →
  sending s' = Some i →
  (5 + length (ShortQ.live (packet (slot s i))) + 6 ≤ fuel)%nat →
  ∃ bytes final,
    drain fuel s' = Some (bytes, final)
    ∧ sending final = None
    ∧ prologue final = ShortQ.Mk [] ∧ cmac final = ShortQ.Mk []
    ∧ slot final i = {| addr := -1; packet := ShortQ.Mk []; time := 0 |}
    ∧ (∀ j, j ≠ i → slot final j = slot s j)
    ∧ peek final = -1.
Proof.
  intros Ha Hprep Hsend Hfuel.
  apply prepare_success in Hprep as (_ & i' & Hi & Haddr & _ & ->).
  simpl in Hsend. injection Hsend as ->.
  destruct (slot_tag_in_table s i) as (it & Hit & _);
    [unfold uint8 in Ha; lia |].
  apply lookup_lt_Some in Hit.
  exists (frame_left i (freeze crypto i s)), (released i (freeze crypto i s)).
  split.
  - apply drain_frame.
    + reflexivity.
    + unfold freeze; simpl. rewrite length_insert. exact Hit.
    + apply empty_live. unfold freeze; simpl. apply push_not_empty. lia.
    + pose proof (freeze_frame_length crypto i s Hit). lia.
  - split; [reflexivity |]. split; [reflexivity |]. split; [reflexivity |].
    split; [| split; [| reflexivity]].
    + unfold released, slot, freeze; simpl.
      rewrite list_lookup_insert_eq; [reflexivity |].
      rewrite length_insert. exact Hit.
    + intros j Hj. unfold released, slot, freeze; simpl.
      rewrite !list_lookup_insert_ne by auto. reflexivity.
Qed.

Lemma prepare_then_drain_releases_witness :
  uint8 5 ∧
  ∃ bytes final,
    drain 100 (snd (prepare_to_send_to mock_crypto 5 scenario1))
    = Some (bytes, final)
    ∧ sending final = None
    ∧ slot final 31 = {| addr := -1; packet := ShortQ.Mk []; time := 0 |}.
Proof.
  assert (uint8 5) as Ha by (unfold uint8; lia).
  split; [exact Ha |].
  destruct (prepare_then_drain_releases mock_crypto 5 scenario1
              (snd (prepare_to_send_to mock_crypto 5 scenario1)) 31 100 Ha)
    as (bytes & final & Hd & Hs & _ & _ & Hslot & _).
  - vm_compute. reflexivity.
  - vm_compute. reflexivity.
  - vm_compute. lia.
  - exists bytes, final. repeat split; assumption.
Defined.

(** ** Invariants of the reachable states *)

Lemma pop_forms s :
  snd (pop s) = s
  ∨ snd (pop s) = set_prologue s (ShortQ.pop (prologue s))
  ∨ (∃ i, snd (pop s)
          = set_slot s i (set_packet (slot s i) (ShortQ.pop (packet (slot s i)))))
  ∨ snd (pop s) = set_cmac s (ShortQ.pop (cmac s))
  ∨ ∃ i, snd (pop s) = released i s.
Proof.
  unfold pop. destruct (sending s) as [i|]; [| left; reflexivity].
  destruct (negb (ShortQ.empty (prologue s))); [right; left; reflexivity |].
  destruct (negb (ShortQ.empty (packet (slot s i))));
    [right; right; left; exists i; reflexivity |].
  destruct (negb (ShortQ.empty (cmac s))); simpl.
  - destruct (ShortQ.empty (ShortQ.pop (cmac s))).
    + right; right; right; right. exists i. reflexivity.
    + right; right; right; left. reflexivity.
  - destruct (ShortQ.empty (cmac s)).
    + right; right; right; right. exists i. reflexivity.
    + left. reflexivity.
Qed.

Lemma slot_Forall (P : Item → Prop) s i :
  Forall P (que s) → P Item_new → P (slot s i).
Proof.
  intros Hall Hnew. unfold slot.
  destruct (que s !! i) as [it|] eqn:Hit; simpl; [| exact Hnew].
  eapply Forall_lookup_1; eauto.
Qed.

Lemma to_int8_range z : -128 ≤ to_int8 z ≤ 127.
Proof. unfold to_int8. pose proof (Z.mod_pos_bound (z + 128) 256). lia. Qed.

Lemma reachable_tags_int8 crypto ok max_age s :
  reachable_via crypto ok max_age s → tags_int8 s.
Proof.
  unfold tags_int8.
  induction 1 as [|s c Hreach Hq Hty _].
  - apply Forall_replicate. simpl. lia.
  - assert (-128 ≤ addr Item_new ≤ 127) as Hnew by (simpl; lia).
    destruct c as [a bytes curtime|a| | |i c]; simpl.
    + pose proof (want_outcome a bytes curtime s) as H.
      destruct (fst (want_to_send_for a bytes curtime s)) as [ri|].
      * destruct H as (_ & _ & [[_ ->]|(_ & _ & ->)]); [exact Hq |].
        apply Forall_insert; [exact Hq |]. simpl. apply to_int8_range.
      * destruct H as [-> _]. exact Hq.
    + destruct (prepare_to_send_to crypto a s) as [[|] s'] eqn:Hprep; simpl.
      * apply prepare_success in Hprep as (_ & i & _ & _ & _ & ->).
        unfold freeze; simpl. apply Forall_insert; [exact Hq |]. simpl. lia.
      * apply prepare_failure in Hprep as ->. exact Hq.
    + exact Hq.
    + destruct (pop_forms s) as [->|[->|[[i ->]|[->|[i ->]]]]]; try exact Hq.
      * apply Forall_insert; [exact Hq |]. simpl.
        apply (slot_Forall _ s i Hq Hnew).
      * apply Forall_insert; [exact Hq |]. simpl. lia.
    + apply Forall_insert; [exact Hq |]. simpl.
      apply (slot_Forall _ s i Hq Hnew).
Qed.

(** X10: the slot tag is a signed 8-bit field, so an address of 128 or more
    is stored as a negative tag that no [uint8_t] argument equals: in every
    reachable state [prepare_to_send_to] for such an address returns false
    and changes nothing.  A packet reserved for an address above 127 can
    never be sent. *)
Theorem high_address_never_prepared crypto max_age s a :
  reachable crypto max_age s →
  uint8 a → 128 ≤ a →
  prepare_to_send_to crypto a s = (false, s).
Proof.
  intros Hreach Ha Hhigh.
  pose proof (reachable_tags_int8 _ _ _ _ Hreach) as Htags.
  destruct (prepare_to_send_to crypto a s) as [[|] s'] eqn:Hprep.
  - apply prepare_success in Hprep as (_ & i & _ & Haddr & _).
    assert (-128 ≤ addr Item_new ≤ 127) as Hnew by (simpl; lia).
    pose proof (slot_Forall _ s i Htags Hnew) as Hi. simpl in Hi. lia.
  - apply prepare_failure in Hprep as ->. reflexivity.
Qed.

Lemma high_address_never_prepared_witness :
  let s := snd (want_to_send_for 200 1 0 (PacketQ_new 60)) in
  addr (slot s 31) = -56 ∧ prepare_to_send_to mock_crypto 200 s = (false, s).
Proof.
  intros s. split; [reflexivity |].
  apply (high_address_never_prepared mock_crypto 60 s 200).
  - change s with (exec mock_crypto (WantToSendFor 200 1 0) (PacketQ_new 60)).
    apply reach_call; [apply reach_new | simpl; unfold uint8; lia | exact I].
  - unfold uint8. lia.
  - lia.
Defined.

(** * Utilities *)

(** ** [RequestDelay] *)

Lemma retries_length R n : ∀ d, length (fst (RequestDelay.retries R n d)) = n.
Proof.
  induction n as [|n IH]; intros d; simpl; [reflexivity |].
  destruct (RequestDelay.should_retry R d) as [b d'].
  specialize (IH d'). destruct (RequestDelay.retries R n d') as [bs d''].
  simpl in *. congruence.
Qed.

(** With the counter at [c], the call number [k] (from 0) answers true iff
    [k] is [c] plus a multiple of [R + 1]. *)
Lemma retries_from_counter R : 0 ≤ R ≤ 127 → ∀ n k c,
  (k < n)%nat → 0 ≤ c ≤ R →
  fst (RequestDelay.retries R n (RequestDelay.Mk c)) !! k
  = Some ((c <=? Z.of_nat k) && ((Z.of_nat k - c) mod (R + 1) =? 0)).
Proof.
  intros HR. induction n as [|n IH]; intros k c Hk Hc; [lia |].
  simpl. unfold RequestDelay.should_retry. simpl.
  destruct (Z.ltb_spec c 0); [lia |].
  destruct (Z.eqb_spec c 0) as [->|Hc0].
  - specialize (IH (pred k) R).
    destruct (RequestDelay.retries R n (RequestDelay.Mk R)) as [bs d''].
    destruct k as [|k]; simpl.
    + reflexivity.
    + simpl in IH. rewrite IH by lia. f_equal.
      replace (Z.of_nat (S k) - 0) with ((Z.of_nat k - R) + 1 * (R + 1)) by lia.
      rewrite Z_mod_plus_full.
      destruct (Z.leb_spec R (Z.of_nat k)); simpl; [reflexivity |].
      symmetry. apply Z.eqb_neq.
      replace (Z.of_nat k - R) with (Z.of_nat k + 1 + (-1) * (R + 1)) by lia.
      rewrite Z_mod_plus_full, Z.mod_small by lia. lia.
  - rewrite to_int8_small by lia.
    specialize (IH (pred k) (c - 1)).
    destruct (RequestDelay.retries R n (RequestDelay.Mk (c - 1))) as [bs d''].
    destruct k as [|k]; simpl.
    + f_equal. symmetry. apply andb_false_iff. left. apply Z.leb_gt. simpl. lia.
    + simpl in IH. rewrite IH by lia. f_equal.
      replace (Z.of_nat (S k) - c) with (Z.of_nat k - (c - 1)) by lia.
      f_equal. destruct (Z.leb_spec (c - 1) (Z.of_nat k)),
                        (Z.leb_spec c (Z.of_nat (S k))); try reflexivity; lia.
Qed.

(** X11: after [resume], [should_retry] answers true on the first call and
    then on every [(RETRY_SKIPS + 1)]-th call, false on the [RETRY_SKIPS]
    calls in between (for a non-negative [RETRY_SKIPS]). *)
Theorem retry_every_skips_plus_one R n k d :
  0 ≤ R ≤ 127 → (k < n)%nat →
  fst (RequestDelay.retries R n (RequestDelay.resume d)) !! k
  = Some (Z.of_nat k mod (R + 1) =? 0).
Proof.
  intros HR Hk. unfold RequestDelay.resume.
  rewrite (retries_from_counter R HR n k 0 Hk) by lia.
  rewrite Z.sub_0_r. destruct (Z.leb_spec 0 (Z.of_nat k)); [reflexivity | lia].
Qed.

Lemma retry_every_skips_plus_one_witness :
  fst (RequestDelay.retries 2 7 (RequestDelay.resume RequestDelay.new))
  = [true; false; false; true; false; false; true]
  ∧ fst (RequestDelay.retries 2 7 (RequestDelay.resume RequestDelay.new)) !! 3%nat
    = Some (Z.of_nat 3 mod (2 + 1) =? 0).
Proof.
  split; [reflexivity |].
  apply retry_every_skips_plus_one; lia.
Defined.

(** X12: a paused delay stays paused: [should_retry] answers false, however
    often it is called, and leaves the counter alone; that holds for a
    fresh [RequestDelay] and after [pause]. *)
Theorem paused_never_retries R n d :
  RequestDelay.is_paused d = true →
  RequestDelay.retries R n d = (replicate n false, d).
Proof.
  unfold RequestDelay.is_paused. intros Hp.
  induction n as [|n IH]; simpl; [reflexivity |].
  unfold RequestDelay.should_retry. rewrite Hp, IH. reflexivity.
Qed.

Lemma paused_never_retries_witness :
  RequestDelay.is_paused (RequestDelay.pause (RequestDelay.Mk 3)) = true
  ∧ RequestDelay.retries 5 4 (RequestDelay.pause (RequestDelay.Mk 3))
    = ([false; false; false; false], RequestDelay.Mk (-1)).
Proof.
  split; [reflexivity |].
  apply (paused_never_retries 5 4 (RequestDelay.pause (RequestDelay.Mk 3))).
  reflexivity.
Defined.

(** X13: with a negative [RETRY_SKIPS] the delay fires once: after [resume]
    the first call answers true and stores the negative value, which reads
    as paused, so every later call answers false. *)
Theorem negative_skips_retry_once R n d :
  R < 0 →
  RequestDelay.retries R (S n) (RequestDelay.resume d)
  = (true :: replicate n false, RequestDelay.Mk R)
  ∧ RequestDelay.is_paused (RequestDelay.Mk R) = true.
Proof.
  intros HR.
  assert (RequestDelay.is_paused (RequestDelay.Mk R) = true) as Hp
    by (apply Z.ltb_lt; exact HR).
  split; [| exact Hp]. simpl.
  assert (RequestDelay.retries R n (RequestDelay.Mk R)
          = (replicate n false, RequestDelay.Mk R)) as ->; [| reflexivity].
  clear d. induction n as [|n IH]; simpl; [reflexivity |].
  unfold RequestDelay.should_retry. unfold RequestDelay.is_paused in Hp.
  rewrite Hp, IH. reflexivity.
Qed.

Lemma negative_skips_retry_once_witness :
  -1 < 0 ∧
  RequestDelay.retries (-1) 4 (RequestDelay.resume RequestDelay.new)
  = ([true; false; false; false], RequestDelay.Mk (-1)).
Proof.
  split; [lia |].
  apply (negative_skips_retry_once (-1) 3 RequestDelay.new). lia.
Defined.

(** ** [Flags] *)

Lemma land_bit v i :
  0 ≤ i → Z.land v (Z.shiftl 1 i) = if Z.testbit v i then 2 ^ i else 0.
Proof.
  intros Hi. apply Z.bits_inj'. intros n Hn.
  rewrite Z.land_spec, Z.shiftl_1_l, Z.pow2_bits_eqb by lia.
  destruct (Z.eqb_spec i n) as [->|Hne].
  - destruct (Z.testbit v n); [| rewrite Z.bits_0; reflexivity].
    rewrite Z.pow2_bits_true by lia. reflexivity.
  - rewrite andb_false_r.
    destruct (Z.testbit v i); [| rewrite Z.bits_0; reflexivity].
    rewrite Z.pow2_bits_false by lia. reflexivity.
Qed.

Lemma flags_get_testbit f i : 0 ≤ i → Flags.get f i = Z.testbit (Flags.val f) i.
Proof.
  intros Hi. unfold Flags.get. rewrite land_bit by exact Hi.
  destruct (Z.testbit (Flags.val f) i); [| reflexivity].
  destruct (Z.eqb_spec (2 ^ i) 0); [lia | reflexivity].
Qed.

Lemma flags_mask_low i : 0 ≤ i < 8 → Flags.mask i = 2 ^ i.
Proof.
  intros Hi. unfold Flags.mask, to_uint8. rewrite Z.shiftl_1_l.
  apply Z.mod_small. split; [lia |].
  change 256 with (2 ^ 8). apply Z.pow_lt_mono_r; lia.
Qed.

Lemma flags_mask_high i : 8 ≤ i → Flags.mask i = 0.
Proof.
  intros Hi. unfold Flags.mask, to_uint8. rewrite Z.shiftl_1_l.
  replace i with ((i - 8) + 8) by lia. rewrite Z.pow_add_r by lia.
  change (2 ^ 8) with 256. apply Z_mod_mult.
Qed.

Lemma flags_set_bits f i b j :
  0 ≤ i < 8 → 0 ≤ j < 8 →
  Z.testbit (Flags.val (snd (Flags.set f i b))) j
  = if j =? i then b else Z.testbit (Flags.val f) j.
Proof.
  intros Hi Hj. unfold Flags.set; simpl. unfold to_uint8.
  change 256 with (2 ^ 8). rewrite Z.mod_pow2_bits_low by lia.
  rewrite flags_mask_low by exact Hi.
  rewrite Z.lor_spec, Z.land_spec, Z.lnot_spec, Z.pow2_bits_eqb by lia.
  rewrite (Z.eqb_sym i j).
  destruct (Z.eqb_spec j i) as [->|Hne]; simpl.
  - rewrite andb_false_r. simpl. destruct b.
    + apply Z.pow2_bits_true. lia.
    + apply Z.bits_0.
  - rewrite andb_true_r. destruct b.
    + rewrite Z.pow2_bits_false by lia. apply orb_false_r.
    + rewrite Z.bits_0. apply orb_false_r.
Qed.

(** X14: writing flag [idx] (0 to 7) and reading it back gives the value
    written, which is also what the assignment returns; the other seven
    flags read as before, and [val] stays a byte. *)
Theorem flag_set_then_get f idx b :
  0 ≤ idx < 8 →
  fst (Flags.set f idx b) = b
  ∧ Flags.get (snd (Flags.set f idx b)) idx = b
  ∧ (∀ j, 0 ≤ j < 8 → j ≠ idx →
          Flags.get (snd (Flags.set f idx b)) j = Flags.get f j)
  ∧ 0 ≤ Flags.val (snd (Flags.set f idx b)) < 256.
Proof.
  intros Hi.
  assert (Flags.get (snd (Flags.set f idx b)) idx = b) as Hget.
  { rewrite flags_get_testbit, flags_set_bits by lia.
    rewrite Z.eqb_refl. reflexivity. }
  split; [exact Hget |]. split; [exact Hget |]. split.
  - intros j Hj Hne. rewrite !flags_get_testbit, flags_set_bits by lia.
    destruct (Z.eqb_spec j idx); [contradiction | reflexivity].
  - unfold Flags.set; simpl. unfold to_uint8. apply Z.mod_pos_bound. lia.
Qed.

Lemma flag_set_then_get_witness :
  0 ≤ 3 < 8 ∧
  Flags.get (snd (Flags.set (Flags.Mk 0x41) 3 true)) 3 = true
  ∧ Flags.val (snd (Flags.set (Flags.Mk 0x41) 3 true)) = 0x49.
Proof.
  split; [lia |]. split; [| reflexivity].
  apply (flag_set_then_get (Flags.Mk 0x41) 3 true). lia.
Defined.

(** X15: there are only eight flags: for an index from 8 up (below 31,
    where the shift is defined) the mask is zero, so a write changes nothing
    and returns false whatever was written, and a read gives false. *)
Theorem flag_index_out_of_range f idx b :
  0 ≤ Flags.val f < 256 → 8 ≤ idx < 31 →
  Flags.set f idx b = (false, f) ∧ Flags.get f idx = false.
Proof.
  intros Hv Hi.
  assert (Flags.get f idx = false) as Hget.
  { rewrite flags_get_testbit by lia.
    apply (Z.bits_above_log2 (Flags.val f) idx); [lia |].
    destruct (Z.eq_dec (Flags.val f) 0) as [->|Hnz]; [simpl; lia |].
    apply Z.log2_lt_pow2; [lia |].
    apply Z.lt_le_trans with (2 ^ 8); [simpl; lia |].
    apply Z.pow_le_mono_r; lia. }
  split; [| exact Hget].
  unfold Flags.set. rewrite flags_mask_high by lia.
  assert (to_uint8 (Z.lor (Z.land (Flags.val f) (Z.lnot 0)) (if b then 0 else 0))
          = Flags.val f) as ->.
  { change (Z.lnot 0) with (-1). rewrite Z.land_m1_r.
    destruct b; rewrite Z.lor_0_r; apply Z.mod_small; exact Hv. }
  destruct f as [v]. simpl in *. rewrite Hget. reflexivity.
Qed.

Lemma flag_index_out_of_range_witness :
  0 ≤ Flags.val (Flags.Mk 0x41) < 256 ∧ 8 ≤ 9 < 31 ∧
  Flags.set (Flags.Mk 0x41) 9 true = (false, Flags.Mk 0x41).
Proof.
  split; [simpl; lia |]. split; [lia |].
  apply (flag_index_out_of_range (Flags.Mk 0x41) 9 true); simpl; lia.
Defined.

(** ** [ForceFlags] *)

Lemma push_list_snoc M l p f :
  ForceFlags.push_list M (l ++ [p]) f
  = ForceFlags.push M (fst p) (snd p) (ForceFlags.push_list M l f).
Proof. unfold ForceFlags.push_list. rewrite fold_left_app. reflexivity. Qed.

Lemma accepted_snoc M l p :
  ForceFlags.accepted M (l ++ [p])
  = ForceFlags.accepted M l ++ (if fst p <? M then [p] else []).
Proof.
  unfold ForceFlags.accepted. rewrite filter_app. f_equal.
  destruct (Z.ltb_spec (fst p) M).
  - rewrite filter_cons_True by assumption. reflexivity.
  - rewrite filter_cons_False by lia. reflexivity.
Qed.

(** The counter, the [fat] flag and the two small entries after a series of
    pushes, in terms of the accepted calls. *)
Lemma push_list_state M l :
  let f := ForceFlags.push_list M l ForceFlags.new in
  let acc := ForceFlags.accepted M l in
  ForceFlags.ctr f = Z.of_nat (length acc) mod 256
  ∧ ForceFlags.fat f = existsb snd acc
  ∧ ((length acc < 256)%nat →
     ForceFlags.small f = [nth 0 (map fst acc) 0; nth 1 (map fst acc) 0]).
Proof.
  induction l as [|p l IH] using rev_ind; [repeat split |].
  simpl in *. rewrite push_list_snoc, accepted_snoc.
  destruct IH as (Hctr & Hfat & Hsmall).
  unfold ForceFlags.push.
  destruct (Z.ltb_spec (fst p) M) as [Hacc|Hrej].
  - destruct (Z.leb_spec M (fst p)); [lia |]. simpl.
    rewrite length_app, existsb_app, map_app. simpl.
    split; [| split].
    + rewrite Hctr. unfold to_uint8. rewrite Z.add_mod_idemp_l by lia.
      f_equal. lia.
    + rewrite Hfat, orb_false_r. reflexivity.
    + intros Hlen. rewrite Hctr, Z.mod_small by lia.
      rewrite Hsmall by lia.
      destruct (ForceFlags.accepted M l) as [|x [|y acc]]; simpl; try reflexivity.
      destruct (Z.ltb_spec (Z.of_nat (S (S (length acc)))) 2); [lia | reflexivity].
  - destruct (Z.leb_spec M (fst p)); [| lia].
    rewrite !app_nil_r. auto.
Qed.

(** X16: [count] is the number of pushes that were accepted (address below
    [MAX_HR_COUNT]), counted modulo 256 as the [uint8_t] counter wraps;
    rejected pushes leave no trace, and [fat] is set iff some accepted push
    asked for it. *)
Theorem force_flags_count M l :
  ForceFlags.count (ForceFlags.push_list M l ForceFlags.new)
  = Z.of_nat (length (ForceFlags.accepted M l)) mod 256
  ∧ ForceFlags.fat (ForceFlags.push_list M l ForceFlags.new)
    = existsb snd (ForceFlags.accepted M l)
  ∧ ForceFlags.push_list M l ForceFlags.new
    = ForceFlags.push_list M (ForceFlags.accepted M l) ForceFlags.new.
Proof.
  split; [apply push_list_state |]. split; [apply push_list_state |].
  induction l as [|p l IH] using rev_ind; [reflexivity |].
  rewrite push_list_snoc, accepted_snoc, IH.
  unfold ForceFlags.push at 1.
  destruct (Z.ltb_spec (fst p) M), (Z.leb_spec M (fst p)); try lia.
  - rewrite push_list_snoc. unfold ForceFlags.push.
    destruct (Z.leb_spec M (fst p)); [lia | reflexivity].
  - rewrite app_nil_r. reflexivity.
Qed.

(** X17: with one or two accepted pushes, one of them fat, [write] emits
    exactly two bytes: the addresses in the order they were pushed, the
    second being 0 when only one client was pushed. *)
Theorem force_flags_write_small M l :
  (1 ≤ length (ForceFlags.accepted M l) ≤ 2)%nat →
  existsb snd (ForceFlags.accepted M l) = true →
  ForceFlags.write (ForceFlags.push_list M l ForceFlags.new)
  = [nth 0 (map fst (ForceFlags.accepted M l)) 0;
     nth 1 (map fst (ForceFlags.accepted M l)) 0].
Proof.
  intros Hlen Hfat.
  destruct (push_list_state M l) as (Hctr & Hf & Hsmall).
  unfold ForceFlags.write.
  rewrite Hctr, Hf, Hfat, Hsmall by lia.
  rewrite Z.mod_small by lia.
  destruct (Z.leb_spec (Z.of_nat (length (ForceFlags.accepted M l))) 2); [| lia].
  reflexivity.
Qed.

Lemma force_flags_write_small_witness :
  ForceFlags.write
    (ForceFlags.push_list 29 [(7, false); (40, true); (3, true)] ForceFlags.new)
  = [7; 3].
Proof.
  apply (force_flags_write_small 29 [(7, false); (40, true); (3, true)]).
  - vm_compute. lia.
  - reflexivity.
Defined.

Lemma add_fresh_bit x a :
  0 ≤ a → Z.testbit x a = false → x + 2 ^ a = Z.lor x (2 ^ a).
Proof.
  intros Ha Hbit.
  assert (Z.land x (2 ^ a) = 0) as Hland.
  { rewrite <- Z.shiftl_1_l, land_bit, Hbit by exact Ha. reflexivity. }
  rewrite Z.add_nocarry_lxor by exact Hland.
  apply Z.lxor_lor. exact Hland.
Qed.

Lemma big_bits M l :
  M ≤ 32 →
  Forall (fun p => 0 ≤ fst p < M) l →
  NoDup (map fst l) →
  ∀ n, 0 ≤ n < 32 →
  Z.testbit (ForceFlags.big (ForceFlags.push_list M l ForceFlags.new)) n
  = bool_decide (n ∈ map fst l).
Proof.
  intros HM.
  induction l as [|p l IH] using rev_ind; intros Hall Hnd n Hn.
  - rewrite bool_decide_eq_false_2 by apply not_elem_of_nil. apply Z.bits_0.
  - apply Forall_app in Hall as [Hall Hp]. apply Forall_inv in Hp.
    rewrite map_app in *. simpl in *.
    apply NoDup_app in Hnd as (Hnd & Hfresh & _).
    specialize (IH Hall Hnd).
    rewrite push_list_snoc. unfold ForceFlags.push.
    destruct (Z.leb_spec M (fst p)); [lia |]. simpl.
    unfold to_uint32. change 4294967296 with (2 ^ 32).
    rewrite Z.mod_pow2_bits_low, Z.shiftl_1_l by lia.
    rewrite add_fresh_bit; [| lia |].
    + rewrite Z.lor_spec, Z.pow2_bits_eqb, IH by lia.
      destruct (Z.eqb_spec (fst p) n) as [Heq|Hne].
      * rewrite orb_true_r. symmetry. apply bool_decide_eq_true_2.
        apply elem_of_app. right. apply list_elem_of_singleton. congruence.
      * rewrite orb_false_r. apply bool_decide_ext.
        rewrite elem_of_app, list_elem_of_singleton. intuition congruence.
    + rewrite IH by lia. apply bool_decide_eq_false_2.
      intros Hin. apply (Hfresh (fst p) Hin). apply list_elem_of_singleton. reflexivity.
Qed.

(** X18: when the addresses pushed are pairwise distinct (and below
    [MAX_HR_COUNT], itself at most 31 so that [1 << addr] is a defined shift
    of an [int]), [big] is their bit mask: bit [n] is set iff address [n] was
    pushed. *)
Theorem force_flags_big_is_mask M l n :
  M ≤ 31 →
  Forall (fun p => 0 ≤ fst p < M) l →
  NoDup (map fst l) →
  0 ≤ n < 32 →
  Z.testbit (ForceFlags.big (ForceFlags.push_list M l ForceFlags.new)) n = true
  ↔ n ∈ map fst l.
Proof.
  intros HM Hall Hnd Hn.
  rewrite (big_bits M l ltac:(lia) Hall Hnd n Hn).
  apply bool_decide_eq_true.
Qed.

Lemma force_flags_big_is_mask_witness :
  ForceFlags.big (ForceFlags.push_list 29 [(7, false); (3, true)] ForceFlags.new)
  = 0x88
  ∧ (Z.testbit
       (ForceFlags.big (ForceFlags.push_list 29 [(7, false); (3, true)] ForceFlags.new))
       3 = true
     ↔ 3 ∈ map fst [(7, false); (3, true)]).
Proof.
  split; [reflexivity |].
  apply (force_flags_big_is_mask 29 [(7, false); (3, true)] 3).
  - lia.
  - repeat constructor; simpl; lia.
  - simpl. apply NoDup_cons. split.
    + intros Hin. apply list_elem_of_singleton in Hin. discriminate.
    + apply NoDup_singleton.
  - lia.
Defined.

(** X19: [big] is built by addition, not by or: pushing the same address
    twice on a fresh [ForceFlags] carries into the next bit, so the mask
    names address [a + 1] and no longer [a], while [count] is 2. *)
Theorem force_flags_duplicate_push M a c1 c2 :
  0 ≤ a < M → a < 31 →
  let f := ForceFlags.push M a c2 (ForceFlags.push M a c1 ForceFlags.new) in
  ForceFlags.big f = 2 ^ (a + 1)
  ∧ Z.testbit (ForceFlags.big f) a = false
  ∧ Z.testbit (ForceFlags.big f) (a + 1) = true
  ∧ ForceFlags.count f = 2.
Proof.
  intros Ha Ha31 f.
  assert (ForceFlags.big f = 2 ^ (a + 1)) as Hbig.
  { subst f. unfold ForceFlags.push.
    destruct (Z.leb_spec M a); [lia |]. simpl.
    unfold to_uint32. rewrite Z.shiftl_1_l.
    rewrite Z.add_mod_idemp_l by lia.
    replace (0 + 2 ^ a + 2 ^ a) with (2 ^ (a + 1)) by (rewrite Z.pow_add_r; lia).
    apply Z.mod_small. split; [lia |].
    change 4294967296 with (2 ^ 32). apply Z.pow_lt_mono_r; lia. }
  split; [exact Hbig |]. rewrite Hbig.
  split; [apply Z.pow2_bits_false; lia |].
  split; [apply Z.pow2_bits_true; lia |].
  subst f. unfold ForceFlags.count, ForceFlags.push.
  destruct (Z.leb_spec M a); [lia | reflexivity].
Qed.

Lemma force_flags_duplicate_push_witness :
  0 ≤ 3 < 29 ∧
  ForceFlags.big (ForceFlags.push 29 3 false (ForceFlags.push 29 3 false ForceFlags.new))
  = 2 ^ (3 + 1).
Proof.
  split; [lia |].
  apply (force_flags_duplicate_push 29 3 false false); lia.
Defined.

(** X20: outside the two-client case ([ctr > 2] or not [fat]), [write]
    emits [big] as four bytes, least significant first: each is a byte and
    together they give [big] back. *)
Theorem force_flags_write_big f :
  0 ≤ ForceFlags.big f < 2 ^ 32 →
  (ForceFlags.ctr f <=? 2) && ForceFlags.fat f = false →
  ∃ b0 b1 b2 b3,
    ForceFlags.write f = [b0; b1; b2; b3]
    ∧ 0 ≤ b0 < 256 ∧ 0 ≤ b1 < 256 ∧ 0 ≤ b2 < 256 ∧ 0 ≤ b3 < 256
    ∧ b0 + 2 ^ 8 * b1 + 2 ^ 16 * b2 + 2 ^ 24 * b3 = ForceFlags.big f.
Proof.
  intros Hbig Hcase. unfold ForceFlags.write. rewrite Hcase.
  eexists _, _, _, _. split; [reflexivity |].
  change 255 with (Z.ones 8).
  rewrite !Z.land_ones, !Z.shiftr_div_pow2 by lia.
  change (2 ^ 32) with 4294967296 in Hbig.
  change (2 ^ 8) with 256. change (2 ^ 16) with 65536. change (2 ^ 24) with 16777216.
  repeat split; try (apply Z.mod_pos_bound; lia).
  Z.div_mod_to_equations. lia.
Qed.

Lemma force_flags_write_big_witness :
  ForceFlags.write (ForceFlags.push_list 29 [(7, false); (3, false)] ForceFlags.new)
  = [0x88; 0; 0; 0]
  ∧ ∃ b0 b1 b2 b3,
      ForceFlags.write
        (ForceFlags.push_list 29 [(7, false); (3, false)] ForceFlags.new)
      = [b0; b1; b2; b3]
      ∧ b0 + 2 ^ 8 * b1 + 2 ^ 16 * b2 + 2 ^ 24 * b3 = 0x88.
Proof.
  split; [reflexivity |].
  destruct (force_flags_write_big
              (ForceFlags.push_list 29 [(7, false); (3, false)] ForceFlags.new))
    as (b0 & b1 & b2 & b3 & Hw & _ & _ & _ & _ & Hsum).
  - vm_compute. split; [discriminate | reflexivity].
  - reflexivity.
  - exists b0, b1, b2, b3. split; [exact Hw | exact Hsum].
Defined.

(** ** [change_get_timer_mask] *)

Lemma timer_mask_value change :
  0 ≤ change →
  change_get_timer_mask change = (change / 2) mod 256.
Proof.
  intros Hc. unfold change_get_timer_mask, to_uint8, CHANGE_TIMER_MASK.
  apply Z.bits_inj'. intros n Hn.
  change 256 with (2 ^ 8).
  destruct (Z.ltb_spec n 8) as [Hlow|Hhigh].
  - rewrite !Z.mod_pow2_bits_low by lia.
    rewrite Z.shiftr_spec, Z.land_spec by lia.
    replace (change / 2) with (Z.shiftr change 1)
      by (rewrite Z.shiftr_div_pow2 by lia; reflexivity).
    rewrite Z.shiftr_spec by lia.
    assert (Z.testbit 510 (n + 1) = true) as ->; [| apply andb_true_r].
    assert (n = 0 ∨ n = 1 ∨ n = 2 ∨ n = 3 ∨ n = 4 ∨ n = 5 ∨ n = 6 ∨ n = 7)
      as Hcases by lia.
    destruct Hcases as [->|[->|[->|[->|[->|[->|[->| ->]]]]]]]; reflexivity.
  - rewrite !Z.mod_pow2_bits_high by lia. reflexivity.
Qed.

(** X21: [change_get_timer_mask] moves the eight timer bits down by one:
    bit [d] of the result (day [d], 0 to 7) is bit [d + 1] of the change
    word, the result is a byte, and [CHANGE_FREQUENT] (bit 0) and every bit
    above the timer mask are dropped. *)
Theorem timer_mask_bits change d :
  0 ≤ change < 65536 → 0 ≤ d →
  Z.testbit (change_get_timer_mask change) d
  = (d <? 8) && Z.testbit change (d + 1)
  ∧ 0 ≤ change_get_timer_mask change < 256.
Proof.
  intros Hc Hd. rewrite timer_mask_value by lia.
  split; [| apply Z.mod_pos_bound; lia].
  change 256 with (2 ^ 8).
  destruct (Z.ltb_spec d 8).
  - rewrite Z.mod_pow2_bits_low by lia.
    replace (change / 2) with (Z.shiftr change 1)
      by (rewrite Z.shiftr_div_pow2 by lia; reflexivity).
    rewrite Z.shiftr_spec by lia. reflexivity.
  - rewrite Z.mod_pow2_bits_high by lia. reflexivity.
Qed.

Lemma timer_mask_bits_witness :
  change_get_timer_mask (Z.lor CHANGE_FREQUENT (CHANGE_TIMER 2)) = 4
  ∧ Z.testbit (change_get_timer_mask (Z.lor CHANGE_FREQUENT (CHANGE_TIMER 2))) 2
    = (2 <? 8) && Z.testbit (Z.lor CHANGE_FREQUENT (CHANGE_TIMER 2)) (2 + 1).
Proof.
  split; [reflexivity |].
  apply (timer_mask_bits (Z.lor CHANGE_FREQUENT (CHANGE_TIMER 2)) 2);
    [vm_compute; split; [discriminate | reflexivity] | lia].
Defined.

(** X22: the mask of a union of change categories is the union of their
    masks, the category of timer day [d] (0 to 7) maps to bit [d], and
    [CHANGE_FREQUENT] contributes nothing. *)
Theorem timer_mask_of_union c1 c2 d :
  0 ≤ c1 → 0 ≤ c2 → 0 ≤ d < 8 →
  change_get_timer_mask (Z.lor c1 c2)
  = Z.lor (change_get_timer_mask c1) (change_get_timer_mask c2)
  ∧ change_get_timer_mask (CHANGE_TIMER d) = 2 ^ d
  ∧ change_get_timer_mask (Z.lor c1 CHANGE_FREQUENT) = change_get_timer_mask c1.
Proof.
  intros H1 H2 Hd.
  assert (∀ x y, 0 ≤ x → 0 ≤ y →
            change_get_timer_mask (Z.lor x y)
            = Z.lor (change_get_timer_mask x) (change_get_timer_mask y)) as Hor.
  { intros x y Hx Hy.
    assert (0 ≤ Z.lor x y) by (apply Z.lor_nonneg; lia).
    rewrite !timer_mask_value by lia.
    assert (∀ z, z / 2 = Z.shiftr z 1) as Hsh
      by (intros z; rewrite Z.shiftr_div_pow2 by lia; reflexivity).
    rewrite !Hsh.
    change 256 with (2 ^ 8). rewrite <- !Z.land_ones by lia.
    rewrite Z.shiftr_lor, Z.land_lor_distr_l. reflexivity. }
  split; [apply Hor; assumption |]. split.
  - assert (d = 0 ∨ d = 1 ∨ d = 2 ∨ d = 3 ∨ d = 4 ∨ d = 5 ∨ d = 6 ∨ d = 7)
      as Hcases by lia.
    destruct Hcases as [->|[->|[->|[->|[->|[->|[->| ->]]]]]]]; reflexivity.
  - rewrite Hor by (unfold CHANGE_FREQUENT; lia).
    change (change_get_timer_mask CHANGE_FREQUENT) with 0.
    apply Z.lor_0_r.
Qed.

Lemma timer_mask_of_union_witness :
  change_get_timer_mask (Z.lor (CHANGE_TIMER 0) (CHANGE_TIMER 7))
  = Z.lor (change_get_timer_mask (CHANGE_TIMER 0))
          (change_get_timer_mask (CHANGE_TIMER 7))
  ∧ change_get_timer_mask (Z.lor (CHANGE_TIMER 0) (CHANGE_TIMER 7)) = 0x81.
Proof.
  split; [| reflexivity].
  apply (timer_mask_of_union (CHANGE_TIMER 0) (CHANGE_TIMER 7) 0);
    [vm_compute; discriminate | vm_compute; discriminate | lia].
Defined.

(** ** [json] *)

Lemma kv_string o name val :
  json.s (json.kv o name val)
  = json.s o ++ (if json.first o then [] else [","%char; " "%char])
    ++ json.member (name, val)
  ∧ json.first (json.kv o name val) = false.
Proof.
  split; [| reflexivity].
  unfold json.kv, json.key, json.str, json.member. simpl.
  destruct (json.first o); simpl; rewrite <- ?app_assoc; simpl;
    rewrite <- ?app_assoc; reflexivity.
Qed.

Lemma join_cons2 x y l :
  json.join (x :: y :: l) = x ++ [","%char; " "%char] ++ json.join (y :: l).
Proof. reflexivity. Qed.

Lemma kv_list_string l : ∀ o,
  json.s (json.kv_list o l)
  = json.s o
    ++ match l with
       | [] => []
       | _ :: _ => (if json.first o then [] else [","%char; " "%char])
                   ++ json.join (map json.member l)
       end
  ∧ json.first (json.kv_list o l)
    = match l with [] => json.first o | _ :: _ => false end.
Proof.
  induction l as [|p l IH]; intros o.
  - split; [symmetry; apply app_nil_r | reflexivity].
  - change (json.kv_list o (p :: l))
      with (json.kv_list (json.kv o (fst p) (snd p)) l).
    destruct (IH (json.kv o (fst p) (snd p))) as [Hs Hf].
    destruct (kv_string o (fst p) (snd p)) as [Hkv Hkf].
    rewrite Hs, Hf, Hkv, Hkf. split; [| destruct l; reflexivity].
    replace (fst p, snd p) with p by (destruct p; reflexivity).
    destruct l as [|q l].
    + rewrite app_nil_r. reflexivity.
    + change (map json.member (p :: q :: l))
        with (json.member p :: json.member q :: map json.member l).
      rewrite join_cons2.
      change (map json.member (q :: l))
        with (json.member q :: map json.member l).
      rewrite <- !app_assoc. reflexivity.
Qed.

(** X23: an [Object] opened on a string, filled by [kv] calls and closed
    appends to that string an opening brace, the members as
    [quote name quote space colon space quote value quote] separated by a
    comma and a space (none before the first), and a closing brace; names
    and values are copied as they are (nothing is escaped), and what the
    string held before is kept. *)
Theorem json_object_rendering s0 l :
  json.Object_dtor (json.kv_list (json.Object_ctor s0) l)
  = s0 ++ ["{"%char] ++ json.join (map json.member l) ++ ["}"%char].
Proof.
  unfold json.Object_dtor, json.Curly_dtor.
  destruct (kv_list_string l (json.Object_ctor s0)) as [-> _].
  unfold json.Object_ctor, json.Curly_ctor. simpl json.s. simpl json.first.
  destruct l as [|p l].
  - rewrite app_nil_r, <- !app_assoc. reflexivity.
  - rewrite app_nil_l, <- !app_assoc. reflexivity.
Qed.

(** X24: a nested object written after [key] leaves the outer object ready
    for its next member: the outer string gets [name : {...}], and a [kv] on
    the outer object afterwards is preceded by a comma, because [key] has
    cleared the outer [first] flag. *)
Theorem json_nested_object s0 name inner after :
  let outer := json.key (json.Object_ctor s0) name in
  let nested := json.kv_list (json.Object_nested outer) inner in
  let outer' := json.kv_list (json.Object_resume outer nested) [after] in
  json.Object_dtor outer'
  = s0 ++ ["{"%char] ++ [json.quote] ++ name ++ [json.quote]
    ++ [" "%char; ":"%char; " "%char]
    ++ (["{"%char] ++ json.join (map json.member inner) ++ ["}"%char])
    ++ [","%char; " "%char] ++ json.member after ++ ["}"%char].
Proof.
  intros outer nested outer'.
  unfold json.Object_dtor, json.Curly_dtor. subst outer'.
  destruct (kv_list_string [after] (json.Object_resume outer nested)) as [-> _].
  unfold json.Object_resume, json.Object_dtor, json.Curly_dtor.
  simpl json.s. simpl json.first. subst nested.
  destruct (kv_list_string inner (json.Object_nested outer)) as [-> _].
  simpl json.first. cbv iota.
  assert (match inner with
          | [] => []
          | _ :: _ => [] ++ json.join (map json.member inner)
          end = json.join (map json.member inner)) as ->
    by (destruct inner; reflexivity).
  change (json.join (map json.member [after])) with (json.member after).
  generalize (json.join (map json.member inner)) as members.
  generalize (json.member after) as last.
  intros last members. subst outer.
  unfold json.Object_nested, json.key, json.Object_ctor, json.Curly_ctor, json.str.
  simpl json.s. simpl negb. cbv iota.
  repeat (progress (rewrite <- ?app_assoc; simpl)). reflexivity.
Qed.

(** * The NTP client *)

Lemma to_ulong_range z : 0 ≤ NTPClient.to_ulong z < 2 ^ 32.
Proof. unfold NTPClient.to_ulong. apply Z.mod_pos_bound. lia. Qed.

(** X25: day, hours, minutes and seconds read at the same instant are in
    range (0..6, 0..23, 0..59, 0..59) and hours, minutes and seconds
    recombine to the second of the day of [getEpochTime]. *)
Theorem time_of_day_decomposition c millis :
  let e := NTPClient.getEpochTime c millis in
  0 ≤ NTPClient.getDay c millis < 7
  ∧ 0 ≤ NTPClient.getHours c millis < 24
  ∧ 0 ≤ NTPClient.getMinutes c millis < 60
  ∧ 0 ≤ NTPClient.getSeconds c millis < 60
  ∧ e mod 86400
    = 3600 * NTPClient.getHours c millis + 60 * NTPClient.getMinutes c millis
      + NTPClient.getSeconds c millis
  ∧ NTPClient.getDay c millis = (e / 86400 + 4) mod 7.
Proof.
  intros e.
  unfold NTPClient.getDay, NTPClient.getHours, NTPClient.getMinutes,
    NTPClient.getSeconds. fold e.
  assert (0 ≤ e < 2 ^ 32) as He by apply to_ulong_range.
  change (2 ^ 32) with 4294967296 in He.
  assert (NTPClient.to_ulong (e / 86400 + 4) = e / 86400 + 4) as ->.
  { unfold NTPClient.to_ulong. change (2 ^ 32) with 4294967296.
    apply Z.mod_small. Z.div_mod_to_equations. lia. }
  repeat split; try (Z.div_mod_to_equations; lia).
Qed.

(** X26: the time since the last update is taken with an unsigned
    subtraction, so a roll-over of [millis()] does no harm: when [d]
    milliseconds (less than 2^32) have passed since [_epocMS],
    [getEpochTime] is offset plus epoch plus [d / 1000] and [getMillis] is
    [d mod 1000], wherever the counter stands. *)
Theorem millis_rollover_is_harmless c millis d :
  0 ≤ d < 2 ^ 32 →
  millis = NTPClient.to_ulong (NTPClient._epocMS c + d) →
  NTPClient.getEpochTime c millis
  = NTPClient.to_ulong (NTPClient._timeOffset c + NTPClient._currentEpoc c + d / 1000)
  ∧ NTPClient.getMillis c millis = d mod 1000.
Proof.
  intros Hd ->.
  assert (NTPClient.to_ulong
            (NTPClient.to_ulong (NTPClient._epocMS c + d) - NTPClient._epocMS c) = d)
    as Hel.
  { unfold NTPClient.to_ulong. rewrite Zminus_mod_idemp_l.
    replace (NTPClient._epocMS c + d - NTPClient._epocMS c) with d by lia.
    apply Z.mod_small. exact Hd. }
  unfold NTPClient.getEpochTime, NTPClient.getMillis. rewrite Hel.
  split; reflexivity.
Qed.

Lemma millis_rollover_is_harmless_witness :
  let c := NTPClient.Mk 3600 1000000 4294966296 0 1 0 in
  NTPClient.getEpochTime c 1500 = 3600 + 1000000 + 2
  ∧ NTPClient.getMillis c 1500 = 500.
Proof.
  intros c.
  apply (millis_rollover_is_harmless c 1500 2500); [lia | reflexivity].
Defined.

Lemma sign_cases d :
  (0 < d ∧ NTPClient.sign d = 1) ∨ (d = 0 ∧ NTPClient.sign d = 0)
  ∨ (d < 0 ∧ NTPClient.sign d = -1).
Proof.
  unfold NTPClient.sign.
  destruct (Z.ltb_spec 0 d), (Z.ltb_spec d 0); lia.
Qed.

Lemma to_long_small z : - 2 ^ 31 ≤ z < 2 ^ 31 → NTPClient.to_long z = z.
Proof.
  intros Hz. unfold NTPClient.to_long. rewrite Z.mod_small; lia.
Qed.

(** X27: once synchronised, a [slew] that is due (a minute or more since
    the last one) moves [_driftMS] one millisecond towards zero and
    [_epocMS] by the same step, so their sum modulo 2^32 is kept; a
    [slew] that is not due changes nothing.  Either way the drift never
    grows, never changes sign, and is what the call returns. *)
Theorem slew_steps_towards_zero c millis :
  NTPClient._lastUpdate c ≠ 0 →
  - 2 ^ 31 ≤ NTPClient._driftMS c < 2 ^ 31 →
  let r := fst (NTPClient.slew c millis) in
  let c' := snd (NTPClient.slew c millis) in
  let d := NTPClient._driftMS c in
  r = NTPClient._driftMS c'
  ∧ NTPClient.to_ulong (NTPClient._epocMS c' + NTPClient._driftMS c')
    = NTPClient.to_ulong (NTPClient._epocMS c + d)
  ∧ (60000 ≤ NTPClient.to_ulong (millis - NTPClient._lastSlew c) →
     NTPClient._driftMS c' = d - NTPClient.sign d
     ∧ Z.abs (NTPClient._driftMS c') = Z.max 0 (Z.abs d - 1)
     ∧ NTPClient._lastSlew c' = millis)
  ∧ (NTPClient.to_ulong (millis - NTPClient._lastSlew c) < 60000 → c' = c).
Proof.
  intros Hsync Hd. simpl. unfold NTPClient.slew.
  assert (∀ z, - 2147483648 ≤ z < 2147483648 → NTPClient.to_long z = z)
    as Hlong by (intros z Hz; apply to_long_small; exact Hz).
  change (2 ^ 31) with 2147483648 in Hd.
  destruct (Z.eqb_spec (NTPClient._lastUpdate c) 0); [contradiction |].
  destruct (Z.leb_spec 60000 (NTPClient.to_ulong (millis - NTPClient._lastSlew c)))
    as [Hdue|Hnot]; simpl.
  - rewrite Hlong
      by (destruct (sign_cases (NTPClient._driftMS c)) as [[? ->]|[[? ->]|[? ->]]]; lia).
    split; [reflexivity |]. split.
    + unfold NTPClient.to_ulong. rewrite Zplus_mod_idemp_l. f_equal. lia.
    + split; [| intros; lia]. intros _.
      split; [reflexivity |]. split; [| reflexivity].
      destruct (sign_cases (NTPClient._driftMS c)) as [[? ->]|[[? ->]|[? ->]]]; lia.
  - split; [reflexivity |]. split; [reflexivity |].
    split; [intros; lia | reflexivity].
Qed.

Lemma slew_steps_towards_zero_witness :
  let c := NTPClient.Mk 0 1000000 5000 (-3) 1 0 in
  NTPClient.slew c 60000
  = (-2, NTPClient.Mk 0 1000000 4999 (-2) 1 60000)
  ∧ NTPClient._driftMS (snd (NTPClient.slew c 60000))
    = NTPClient._driftMS c - NTPClient.sign (NTPClient._driftMS c).
Proof.
  intros c. split; [reflexivity |].
  apply (slew_steps_towards_zero c 60000).
  - discriminate.
  - vm_compute. split; [discriminate | reflexivity].
  - vm_compute. discriminate.
Defined.

Lemma slew_due_state c ms :
  NTPClient._lastUpdate c ≠ 0 →
  - 2147483648 ≤ NTPClient._driftMS c < 2147483648 →
  60000 ≤ NTPClient.to_ulong (ms - NTPClient._lastSlew c) →
  snd (NTPClient.slew c ms)
  = {| NTPClient._timeOffset := NTPClient._timeOffset c;
       NTPClient._currentEpoc := NTPClient._currentEpoc c;
       NTPClient._epocMS :=
         NTPClient.to_ulong (NTPClient._epocMS c + NTPClient.sign (NTPClient._driftMS c));
       NTPClient._driftMS := NTPClient._driftMS c - NTPClient.sign (NTPClient._driftMS c);
       NTPClient._lastUpdate := NTPClient._lastUpdate c;
       NTPClient._lastSlew := ms |}.
Proof.
  intros Hsync Hd Hdue. unfold NTPClient.slew.
  destruct (Z.eqb_spec (NTPClient._lastUpdate c) 0); [contradiction |].
  destruct (Z.leb_spec 60000 (NTPClient.to_ulong (ms - NTPClient._lastSlew c)));
    [| lia].
  simpl. rewrite to_long_small; [reflexivity |].
  change (2 ^ 31) with 2147483648.
  destruct (sign_cases (NTPClient._driftMS c)) as [[? ->]|[[? ->]|[? ->]]]; lia.
Qed.

(** X28: slewing absorbs the drift: after [slew] calls that are each due,
    [_driftMS] has moved towards zero by one millisecond per call until it
    is zero, and [_epocMS] has moved by the same amount; as many due calls as
    the drift has milliseconds bring it to zero and [_epocMS] to its old
    value plus the whole drift (modulo 2^32). *)
Theorem slew_absorbs_drift ts : ∀ c,
  NTPClient._lastUpdate c ≠ 0 →
  - 2 ^ 31 ≤ NTPClient._driftMS c < 2 ^ 31 →
  0 ≤ NTPClient._epocMS c < 2 ^ 32 →
  NTPClient.all_due (NTPClient._lastSlew c) ts →
  let d := NTPClient._driftMS c in
  let k := Z.min (Z.of_nat (length ts)) (Z.abs d) in
  NTPClient._driftMS (NTPClient.slew_all c ts) = d - NTPClient.sign d * k
  ∧ NTPClient._epocMS (NTPClient.slew_all c ts)
    = NTPClient.to_ulong (NTPClient._epocMS c + NTPClient.sign d * k)
  ∧ (Z.abs d ≤ Z.of_nat (length ts) →
     NTPClient._driftMS (NTPClient.slew_all c ts) = 0).
Proof.
  induction ts as [|ms ts IH]; intros c Hsync Hd He Hdue.
  - simpl. rewrite Z.min_l by lia. rewrite Z.mul_0_r, Z.add_0_r, Z.sub_0_r.
    split; [reflexivity |]. split.
    + unfold NTPClient.slew_all; simpl. unfold NTPClient.to_ulong.
      symmetry. apply Z.mod_small. exact He.
    + unfold NTPClient.slew_all; simpl. lia.
  - destruct Hdue as [Hnow Hrest].
    change (2 ^ 31) with 2147483648 in Hd.
    change (NTPClient.slew_all c (ms :: ts))
      with (NTPClient.slew_all (snd (NTPClient.slew c ms)) ts).
    rewrite (slew_due_state c ms Hsync Hd Hnow).
    set (c1 := NTPClient.Mk _ _ _ _ _ _).
    assert (- 2 ^ 31 ≤ NTPClient._driftMS c1 < 2 ^ 31) as Hd1.
    { change (2 ^ 31) with 2147483648. subst c1; simpl.
      destruct (sign_cases (NTPClient._driftMS c)) as [[? ->]|[[? ->]|[? ->]]]; lia. }
    destruct (IH c1 Hsync Hd1 (to_ulong_range _) Hrest) as (Hdr & Hep & _).
    assert (NTPClient._driftMS (NTPClient.slew_all c1 ts)
            = NTPClient._driftMS c
              - NTPClient.sign (NTPClient._driftMS c)
                * Z.min (Z.of_nat (length (ms :: ts))) (Z.abs (NTPClient._driftMS c)))
      as Hdrift.
    { rewrite Hdr. subst c1. simpl NTPClient._driftMS.
      rewrite length_cons, Nat2Z.inj_succ.
      destruct (sign_cases (NTPClient._driftMS c)) as [[? ->]|[[? ->]|[? ->]]];
        destruct (sign_cases (NTPClient._driftMS c - 1)) as [[? Hs]|[[? Hs]|[? Hs]]];
        destruct (sign_cases (NTPClient._driftMS c - -1)) as [[? Hs']|[[? Hs']|[? Hs']]];
        rewrite ?Z.sub_0_r, ?Hs, ?Hs'; try lia;
        destruct (sign_cases (NTPClient._driftMS c))
          as [[? Hs0]|[[? Hs0]|[? Hs0]]]; rewrite ?Hs0; lia. }
    split; [exact Hdrift |]. split.
    + rewrite Hep. subst c1. simpl NTPClient._driftMS. simpl NTPClient._epocMS.
      unfold NTPClient.to_ulong at 1 3. unfold NTPClient.to_ulong at 1.
      rewrite Zplus_mod_idemp_l. f_equal.
      rewrite length_cons, Nat2Z.inj_succ.
      destruct (sign_cases (NTPClient._driftMS c)) as [[? ->]|[[? ->]|[? ->]]];
        destruct (sign_cases (NTPClient._driftMS c - 1)) as [[? Hs]|[[? Hs]|[? Hs]]];
        destruct (sign_cases (NTPClient._driftMS c - -1)) as [[? Hs']|[[? Hs']|[? Hs']]];
        rewrite ?Z.sub_0_r, ?Hs, ?Hs'; try lia;
        destruct (sign_cases (NTPClient._driftMS c))
          as [[? Hs0]|[[? Hs0]|[? Hs0]]]; rewrite ?Hs0; lia.
    + intros Hlen. rewrite Hdrift, Z.min_r by exact Hlen.
      destruct (sign_cases (NTPClient._driftMS c)) as [[? ->]|[[? ->]|[? ->]]]; lia.
Qed.

Lemma slew_absorbs_drift_witness :
  let c := NTPClient.Mk 0 1000000 5000 (-3) 1 0 in
  NTPClient.slew_all c [60000; 120000; 180000]
  = NTPClient.Mk 0 1000000 4997 0 1 180000
  ∧ NTPClient._driftMS (NTPClient.slew_all c [60000; 120000; 180000]) = 0.
Proof.
  intros c. split; [reflexivity |].
  apply (slew_absorbs_drift [60000; 120000; 180000] c).
  - discriminate.
  - vm_compute. split; [discriminate | reflexivity].
  - vm_compute. split; [discriminate | reflexivity].
  - vm_compute. repeat split; discriminate.
  - vm_compute. discriminate.
Defined.

(** X29: the fraction of the NTP timestamp (2^-32 seconds) becomes
    [mssec] without any overflow of the 32-bit arithmetic: [mssec] is
    [125 * frac / 2^32] rounded to the nearest integer (up to the 7 bits
    shifted out first), so it ranges over 0..125, one unit being 8 ms. *)
Theorem mssec_is_fraction_in_125ths frac :
  0 ≤ frac < 2 ^ 32 →
  let r := NTPClient.mssec frac in
  r = (frac / 128 * 125 + 16777216) / 33554432
  ∧ 0 ≤ r ≤ 125
  ∧ 2 ^ 32 * r ≤ 125 * frac + 2 ^ 31
  ∧ 125 * frac + 2 ^ 31 < 2 ^ 32 * (r + 1) + 125 * 128.
Proof.
  intros Hf r.
  change (2 ^ 32) with 4294967296 in *. change (2 ^ 31) with 2147483648.
  assert (r = (frac / 128 * 125 + 16777216) / 33554432) as Hr.
  { subst r. unfold NTPClient.mssec, to_uint16, NTPClient.to_ulong.
    change (2 ^ 32) with 4294967296.
    rewrite !Z.shiftr_div_pow2 by lia. rewrite Z.shiftl_1_l.
    change (2 ^ 7) with 128. change (2 ^ 24) with 16777216.
    change (2 ^ 25) with 33554432.
    rewrite (Z.mod_small (frac / 128 * 125)) by (Z.div_mod_to_equations; lia).
    rewrite (Z.mod_small (frac / 128 * 125 + 16777216))
      by (Z.div_mod_to_equations; lia).
    apply Z.mod_small. Z.div_mod_to_equations. lia. }
  split; [exact Hr |]. rewrite Hr.
  repeat split; Z.div_mod_to_equations; lia.
Qed.

Lemma mssec_is_fraction_in_125ths_witness :
  0 ≤ 2147483648 < 2 ^ 32 ∧ NTPClient.mssec 2147483648 = 63
  ∧ NTPClient.mssec 4294967295 = 125.
Proof.
  split; [lia |].
  destruct (mssec_is_fraction_in_125ths 2147483648 ltac:(lia)) as [Hr _].
  split; [rewrite Hr; reflexivity | reflexivity].
Defined.

(** * The slot table across calls *)

Lemma reachable_run crypto ok max_age calls : ∀ s,
  reachable_via crypto ok max_age s →
  Forall well_typed calls →
  (∀ s' c, ok s' c) →
  reachable_via crypto ok max_age (run crypto calls s).
Proof.
  induction calls as [|c calls IH]; intros s Hs Hty Hok; [exact Hs |].
  apply Forall_cons in Hty as [Hc Hty].
  apply IH; [| exact Hty | exact Hok].
  apply reach_call; auto.
Qed.




Lemma slot_in_table s j :
  (j < length (que s))%nat → que s !! j = Some (slot s j).
Proof.
  intros Hj. unfold slot.
  destruct (lookup_lt_is_Some_2 (que s) j Hj) as [it ->]. reflexivity.
Qed.








(** * The address byte *)

Lemma to_uint8_to_int8 a : uint8 a → to_uint8 (to_int8 a) = a.
Proof.
  unfold uint8, to_uint8, to_int8. intros Ha.
  Z.div_mod_to_equations. lia.
Qed.

Lemma head_push {N} (q : ShortQ.t N) c b :
  head (ShortQ.live q) = Some b → head (ShortQ.live (ShortQ.push q c)) = Some b.
Proof.
  intros Hb. rewrite push_live.
  destruct (0 <? ShortQ.free_size q); [| exact Hb].
  destruct (ShortQ.live q); [discriminate | exact Hb].
Qed.

(** What [pop] does, with the slot [sending] points to. *)
Lemma pop_cases s :
  snd (pop s) = s
  ∨ ∃ i, sending s = Some i
         ∧ (snd (pop s) = set_prologue s (ShortQ.pop (prologue s))
            ∨ snd (pop s)
              = set_slot s i (set_packet (slot s i) (ShortQ.pop (packet (slot s i))))
            ∨ snd (pop s) = set_cmac s (ShortQ.pop (cmac s))
            ∨ snd (pop s) = released i s).
Proof.
  unfold pop. destruct (sending s) as [i|] eqn:Hs; [| left; reflexivity].
  right. exists i. split; [reflexivity |].
  destruct (negb (ShortQ.empty (prologue s))); [left; reflexivity |].
  destruct (negb (ShortQ.empty (packet (slot s i))));
    [right; left; reflexivity |].
  destruct (negb (ShortQ.empty (cmac s))) eqn:Hc; simpl.
  - destruct (ShortQ.empty (ShortQ.pop (cmac s))).
    + right; right; right. reflexivity.
    + right; right; left. reflexivity.
  - apply negb_false_iff in Hc. rewrite Hc.
    right; right; right. reflexivity.
Qed.

Lemma reachable_first_byte crypto ok max_age s :
  reachable_via crypto ok max_age s → first_byte_is_address s.
Proof.
  induction 1 as [|s c Hreach IH Hty _].
  - intros i it Hit [Hfree _] _ _.
    apply lookup_replicate in Hit as [-> _]. exfalso. apply Hfree. reflexivity.
  - destruct c as [a bytes curtime|a| | |k c]; simpl.
    + pose proof (want_outcome a bytes curtime s) as H.
      destruct (fst (want_to_send_for a bytes curtime s)) as [ri|];
        [| destruct H as [-> _]; exact IH].
      destruct H as (_ & _ & [[_ ->]|(_ & _ & ->)]); [exact IH |].
      intros i it Hit Hopen Hns Hsend. simpl in Hit, Hsend.
      apply list_lookup_insert_Some in Hit as [(<- & <- & _)|(Hne & Hit)];
        [| apply (IH i it Hit Hopen Hns Hsend)].
      simpl in *. destruct Hty as [Ha _].
      rewrite to_uint8_to_int8 by exact Ha.
      destruct (Z.eqb_spec a SYNC_ADDR) as [->|_]; [| reflexivity].
      exfalso. apply Hns. reflexivity.
    + destruct (prepare_to_send_to crypto a s) as [[|] s'] eqn:Hprep; simpl.
      * apply prepare_success in Hprep as (Hidle & k & _ & _ & _ & ->).
        intros i it Hit Hopen Hns Hsend. unfold freeze in Hit, Hsend. simpl in Hit, Hsend.
        apply list_lookup_insert_Some in Hit as [(<- & <- & _)|(Hne & Hit)].
        -- exfalso. destruct Hopen as [_ Hfrozen]. apply Hfrozen. reflexivity.
        -- apply (IH i it Hit Hopen Hns). rewrite Hidle. discriminate.
      * apply prepare_failure in Hprep as ->. exact IH.
    + exact IH.
    + destruct (pop_cases s) as [->|(k & Hk & [->|[->|[->| ->]]])]; try exact IH.
      * intros i it Hit Hopen Hns Hsend. simpl in Hit, Hsend.
        apply list_lookup_insert_Some in Hit as [(<- & <- & _)|(Hne & Hit)];
          [congruence | apply (IH i it Hit Hopen Hns Hsend)].
      * intros i it Hit Hopen Hns _. unfold released in Hit. simpl in Hit.
        apply list_lookup_insert_Some in Hit as [(<- & <- & _)|(Hne & Hit)].
        -- exfalso. destruct Hopen as [Hfree _]. apply Hfree. reflexivity.
        -- apply (IH i it Hit Hopen Hns). congruence.
    + intros i it Hit Hopen Hns Hsend. unfold push_to in Hit, Hsend. simpl in Hit, Hsend.
      apply list_lookup_insert_Some in Hit as [(<- & <- & Hlt)|(Hne & Hit)];
        [| apply (IH i it Hit Hopen Hns Hsend)].
      simpl in *. apply head_push.
      apply (IH k (slot s k)); auto. apply slot_in_table. exact Hlt.
Qed.

(** C6, as the code has it.  In every reachable state: (1) a call that
    claims slot [ri] under rule 2 (the scan passes over every slot above
    [ri], rule 1 does not fire on [ri], and [ri] is free or stale) returns
    that slot with its tag set to the requested address as the signed 8-bit
    field stores it (the address itself for 0..127, the address minus 256 for
    128..255), its time set to [curtime], and its packet holding the address
    as only byte iff the address is not [SYNC_ADDR], no byte otherwise, and
    changes nothing else; (2) every open slot bound to a non-SYNC address,
    other than the slot in flight, has that address as first byte of its
    packet; (3) so the payload that [prepare_to_send_to] freezes for a
    non-SYNC address starts, before encryption, with that address. *)
Theorem claim_binds_slot crypto max_age s :
  reachable crypto max_age s →
  (∀ a bytes curtime ri,
     uint8 a →
     (ri < PACKET_QUEUE_LEN)%nat →
     (∀ j, (ri < j < PACKET_QUEUE_LEN)%nat → passed_over a bytes curtime s j) →
     rule1 a bytes (slot s ri) = false →
     rule2 (packet_max_age s) curtime (slot s ri) = true →
     ∃ s', want_to_send_for a bytes curtime s = (Some ri, s')
           ∧ addr (slot s' ri) = to_int8 a
           ∧ (a < 128 → addr (slot s' ri) = a)
           ∧ (128 ≤ a → addr (slot s' ri) = a - 256)
           ∧ time (slot s' ri) = curtime
           ∧ ShortQ.live (packet (slot s' ri)) = (if a =? SYNC_ADDR then [] else [a])
           ∧ (a ≠ SYNC_ADDR → head (ShortQ.live (packet (slot s' ri))) = Some a)
           ∧ (∀ j, j ≠ ri → slot s' j = slot s j)
           ∧ sending s' = sending s ∧ prologue s' = prologue s ∧ cmac s' = cmac s)
  ∧ first_byte_is_address s
  ∧ (∀ a s', uint8 a → a ≠ SYNC_ADDR →
             prepare_to_send_to crypto a s = (true, s') →
             ∃ i, sending s' = Some i
                  ∧ head (ShortQ.live (packet (slot s i))) = Some a).
Proof.
  intros Hreach.
  destruct (reachable_in_flight_ok _ _ _ _ Hreach) as [Hlen _].
  pose proof (reachable_first_byte _ _ _ _ Hreach) as Hfirst.
  split; [| split; [exact Hfirst |]].
  - intros a bytes curtime ri Ha Hri Hall H1 H2.
    exists (set_slot s ri (claimed a curtime)).
    rewrite (want_first_eligible a bytes curtime s ri Hri Hall), H1, H2.
    rewrite slot_set_slot_eq by lia. simpl.
    split; [reflexivity |]. split; [reflexivity |].
    split; [intros Hsmall; apply to_int8_small; unfold uint8 in Ha; lia |].
    split.
    { intros Hhigh. unfold to_int8, uint8 in *.
      Z.div_mod_to_equations. lia. }
    split; [reflexivity |]. split; [reflexivity |]. split.
    { intros Hns. destruct (Z.eqb_spec a SYNC_ADDR); [contradiction | reflexivity]. }
    split; [intros j Hj; apply slot_set_slot_ne; auto |].
    repeat split.
  - intros a s' Ha Hns Hprep.
    apply prepare_success in Hprep as (Hidle & i & Hi & Haddr & _ & ->).
    exists i. split; [reflexivity |].
    rewrite (Hfirst i (slot s i)).
    + rewrite Haddr. unfold to_uint8. rewrite Z.mod_small by exact Ha. reflexivity.
    + apply slot_in_table. lia.
    + unfold open, uint8 in *. lia.
    + congruence.
    + rewrite Hidle. discriminate.
Qed.

(** Scenario 4 of the specification: address 7 at time 0, then address 9 at
    time 61 with [packet_max_age = 60]. *)
Lemma claim_binds_slot_witness :
  let s := snd (want_to_send_for 7 1 0 (PacketQ_new 60)) in
  reachable mock_crypto 60 s
  ∧ rule2 (packet_max_age s) 61 (slot s 31) = true
  ∧ (∃ s', want_to_send_for 9 1 61 s = (Some 31%nat, s')
           ∧ addr (slot s' 31) = 9 ∧ time (slot s' 31) = 61
           ∧ ShortQ.live (packet (slot s' 31)) = [9])
  ∧ head (ShortQ.live (packet (slot s 31))) = Some 7.
Proof.
  intros s.
  assert (reachable mock_crypto 60 s) as Hreach.
  { change s with (exec mock_crypto (WantToSendFor 7 1 0) (PacketQ_new 60)).
    apply reach_call; [apply reach_new | simpl; unfold uint8; lia | exact I]. }
  split; [exact Hreach |]. split; [reflexivity |].
  destruct (claim_binds_slot mock_crypto 60 s Hreach) as (Hclaim & Hfirst & _).
  split.
  - destruct (Hclaim 9 1 61 31%nat) as (s' & Hw & _ & Haddr & _ & Htime & Hpkt & _).
    + unfold uint8. lia.
    + unfold PACKET_QUEUE_LEN. lia.
    + unfold PACKET_QUEUE_LEN. intros j Hj. lia.
    + reflexivity.
    + reflexivity.
    + exists s'. repeat split; auto. apply Haddr. lia.
  - apply (Hfirst 31%nat (slot s 31)).
    + reflexivity.
    + split; discriminate.
    + discriminate.
    + discriminate.
Defined.

(** C6, as stated, fails.  A claim for address [0xFF] on a fresh queue takes
    the free slot 31 under rule 2 and leaves its tag at [-1], not at the
    requested address (the slot still reads as free).  And the first byte
    need not be the address for the slot in flight: in
    [overwritten_in_flight], which the calls reach through the reclaim of a
    stale frozen slot, slot 31 is bound to 9 and holds the single byte
    [0x42]. *)
Lemma claimed_tag_is_not_the_address :
  rule2 (packet_max_age (PacketQ_new 60)) 0 (slot (PacketQ_new 60) 31) = true
  ∧ fst (want_to_send_for 0xFF 1 0 (PacketQ_new 60)) = Some 31%nat
  ∧ addr (slot (snd (want_to_send_for 0xFF 1 0 (PacketQ_new 60))) 31) = -1
  ∧ addr (slot (snd (want_to_send_for 0xFF 1 0 (PacketQ_new 60))) 31) ≠ 0xFF
  ∧ reachable mock_crypto 60 overwritten_in_flight
  ∧ sending overwritten_in_flight = Some 31%nat
  ∧ addr (slot overwritten_in_flight 31) = 9
  ∧ ShortQ.live (packet (slot overwritten_in_flight 31)) = [0x42]
  ∧ head (ShortQ.live (packet (slot overwritten_in_flight 31))) ≠ Some 9.
Proof.
  do 3 (split; [vm_compute; reflexivity |]).
  split; [vm_compute; discriminate |].
  split.
  { apply reachable_run; [apply reach_new | | intros; exact I].
    repeat (apply Forall_cons; split; [simpl; unfold uint8, PACKET_QUEUE_LEN; lia |]).
    apply Forall_nil. exact I. }
  do 3 (split; [vm_compute; reflexivity |]).
  vm_compute. discriminate.
Qed.
